(** * A6_Fileupload/server.js: the upload pipeline, shallowly embedded

    The development follows [src/JS/A6_Fileupload/server.js]: the security
    configuration, the helper functions ([sanitizeFileName],
    [isAllowedMimeType], [isAllowedExtension], [checkRateLimit],
    [checkFileSize]), the multer configuration, the rate-limiting
    middleware and the two routes [POST /upload] and
    [GET /uploads/:filename].

    JavaScript strings are sequences of UTF-16 code units; they are modelled
    as [list N].  The functions of Node's [path] module the server calls are
    modelled in [Module path] (POSIX flavour). *)

From Stdlib Require Import ZArith NArith List Bool Ascii String Strings.Byte Lia.
From Stdlib Require Import DecimalString DecimalZ.
From stdpp Require Import base list gmap sorting.

Local Open Scope N_scope.

(** ** JavaScript strings *)

Abbreviation jsstring := (list N).

(** A string literal, as its code units. *)
Definition js (s : string) : jsstring :=
  map N_of_ascii (list_ascii_of_string s).

Definition CHAR_DOT : N := 46.
Definition CHAR_FORWARD_SLASH : N := 47.
Definition CHAR_BACKWARD_SLASH : N := 92.
Definition CHAR_UNDERSCORE : N := 95.

(** [s.charCodeAt(i)] for an index inside the string. *)
Definition charCodeAt (s : jsstring) (i : nat) : N := nth i s 0.

(** [s.slice(start, end)], negative indices counting from the end. *)
Definition slice (s : jsstring) (start end_ : Z) : jsstring :=
  let len := Z.of_nat (length s) in
  let from := if (start <? 0)%Z then Z.max (len + start) 0 else Z.min start len in
  let to := if (end_ <? 0)%Z then Z.max (len + end_) 0 else Z.min end_ len in
  take (Z.to_nat (to - from)) (drop (Z.to_nat from) s).

(** [s.startsWith(p)] *)
Fixpoint startsWith (s p : jsstring) {struct p} : bool :=
  match p, s with
  | [], _ => true
  | _ :: _, [] => false
  | c :: p', d :: s' => (c =? d) && startsWith s' p'
  end.

(** [s.includes(p)] *)
Fixpoint includes (s p : jsstring) : bool :=
  startsWith s p ||
  match s with
  | [] => false
  | _ :: s' => includes s' p
  end.

(** [s.lastIndexOf(c)] for a single code unit; [None] stands for [-1]. *)
Fixpoint lastIndexOf (s : jsstring) (c : N) : option nat :=
  match s with
  | [] => None
  | d :: s' =>
    match lastIndexOf s' c with
    | Some k => Some (S k)
    | None => if d =? c then Some O else None
    end
  end.

(** [list.includes(s)] on an array of strings. *)
Definition array_includes (l : list jsstring) (s : jsstring) : bool :=
  bool_decide (s ∈ l).

(** White space and line terminators, as [String.prototype.trim] strips
    them. *)
Definition is_white_space (c : N) : bool :=
  (c =? 9) || (c =? 10) || (c =? 11) || (c =? 12) || (c =? 13) || (c =? 32)
  || (c =? 160) || (c =? 5760) || ((8192 <=? c) && (c <=? 8202))
  || (c =? 8232) || (c =? 8233) || (c =? 8239) || (c =? 8287)
  || (c =? 12288) || (c =? 65279).

Fixpoint trimStart (s : jsstring) : jsstring :=
  match s with
  | c :: s' => if is_white_space c then trimStart s' else s
  | [] => []
  end.

Definition trim (s : jsstring) : jsstring :=
  rev (trimStart (rev (trimStart s))).

(** ** Security configuration (server.js, lines 20-39) *)

Definition ALLOWED_MIME_TYPES : list jsstring :=
  [ js "image/jpeg"; js "image/jpg"; js "image/png"; js "image/gif";
    js "application/pdf"; js "text/plain" ].

Definition ALLOWED_EXTENSIONS : list jsstring :=
  [ js ".jpg"; js ".jpeg"; js ".png"; js ".gif"; js ".pdf"; js ".txt" ].

Definition MAX_FILE_SIZE : Z := 5 * 1024 * 1024.
Definition MAX_UPLOADS_PER_MINUTE : nat := 10.
Definition RATE_LIMIT_WINDOW : Z := 60 * 1000.

(** ** Node's [path] module (POSIX) *)

Module path.

(** *** [path.extname] *)

Record extname_state := mk_extname_state {
  startDot : Z;
  startPart : Z;
  end_ : Z;
  matchedSlash : bool;
  preDotState : Z
}.

Definition extname_init : extname_state :=
  mk_extname_state (-1) 0 (-1) true 0.

(** The body of the loop for a code unit that is not a separator. *)
Definition extname_step (i : Z) (code : N) (st : extname_state) : extname_state :=
  let st1 :=
    if (end_ st =? -1)%Z
    then mk_extname_state (startDot st) (startPart st) (i + 1) false (preDotState st)
    else st in
  if code =? CHAR_DOT then
    if (startDot st1 =? -1)%Z
    then mk_extname_state i (startPart st1) (end_ st1) (matchedSlash st1) (preDotState st1)
    else if negb (preDotState st1 =? 1)%Z
    then mk_extname_state (startDot st1) (startPart st1) (end_ st1) (matchedSlash st1) 1
    else st1
  else if negb (startDot st1 =? -1)%Z
  then mk_extname_state (startDot st1) (startPart st1) (end_ st1) (matchedSlash st1) (-1)
  else st1.

(** [for (let i = path.length - 1; i >= 0; --i)]: [n] is [i + 1]. *)
Fixpoint extname_loop (p : jsstring) (n : nat) (st : extname_state) : extname_state :=
  match n with
  | O => st
  | S i =>
    let code := charCodeAt p i in
    if code =? CHAR_FORWARD_SLASH then
      if negb (matchedSlash st)
      then mk_extname_state (startDot st) (Z.of_nat i + 1) (end_ st)
             (matchedSlash st) (preDotState st)
      else extname_loop p i st
    else extname_loop p i (extname_step (Z.of_nat i) code st)
  end.

Definition extname (p : jsstring) : jsstring :=
  let st := extname_loop p (length p) extname_init in
  if (startDot st =? -1)%Z || (end_ st =? -1)%Z || (preDotState st =? 0)%Z
     || ((preDotState st =? 1)%Z && (startDot st =? end_ st - 1)%Z
         && (startDot st =? startPart st + 1)%Z)
  then []
  else slice p (startDot st) (end_ st).

(** *** [path.basename(path, suffix)] *)

Record basename_state := mk_basename_state {
  bstart : Z;
  bend : Z;
  bmatchedSlash : bool;
  extIdx : Z;
  firstNonSlashEnd : Z
}.

Definition basename_step (suffix : jsstring) (i : Z) (code : N)
    (st : basename_state) : basename_state :=
  let st1 :=
    if (firstNonSlashEnd st =? -1)%Z
    then mk_basename_state (bstart st) (bend st) false (extIdx st) (i + 1)
    else st in
  if (0 <=? extIdx st1)%Z then
    if code =? charCodeAt suffix (Z.to_nat (extIdx st1)) then
      if (extIdx st1 - 1 =? -1)%Z
      then mk_basename_state (bstart st1) i (bmatchedSlash st1)
             (extIdx st1 - 1) (firstNonSlashEnd st1)
      else mk_basename_state (bstart st1) (bend st1) (bmatchedSlash st1)
             (extIdx st1 - 1) (firstNonSlashEnd st1)
    else mk_basename_state (bstart st1) (firstNonSlashEnd st1) (bmatchedSlash st1)
           (-1) (firstNonSlashEnd st1)
  else st1.

Fixpoint basename_suffix_loop (p suffix : jsstring) (n : nat)
    (st : basename_state) : basename_state :=
  match n with
  | O => st
  | S i =>
    let code := charCodeAt p i in
    if code =? CHAR_FORWARD_SLASH then
      if negb (bmatchedSlash st)
      then mk_basename_state (Z.of_nat i + 1) (bend st) (bmatchedSlash st)
             (extIdx st) (firstNonSlashEnd st)
      else basename_suffix_loop p suffix i st
    else basename_suffix_loop p suffix i (basename_step suffix (Z.of_nat i) code st)
  end.

(** The loop of [basename] without a (usable) suffix; the state is
    [(start, end, matchedSlash)]. *)
Fixpoint basename_plain_loop (p : jsstring) (n : nat)
    (st : Z * Z * bool) : Z * Z * bool :=
  match n with
  | O => st
  | S i =>
    let '(start, e, matched) := st in
    if charCodeAt p i =? CHAR_FORWARD_SLASH then
      if negb matched then (Z.of_nat i + 1, e, matched)%Z
      else basename_plain_loop p i st
    else if (e =? -1)%Z then basename_plain_loop p i (start, Z.of_nat i + 1, false)%Z
    else basename_plain_loop p i st
  end.

Definition basename (p suffix : jsstring) : jsstring :=
  if (0 <? length suffix)%nat && (length suffix <=? length p)%nat then
    if bool_decide (suffix = p) then []
    else
      let st := basename_suffix_loop p suffix (length p)
                  (mk_basename_state 0 (-1) true
                     (Z.of_nat (length suffix) - 1) (-1)) in
      let e :=
        if (bstart st =? bend st)%Z then firstNonSlashEnd st
        else if (bend st =? -1)%Z then Z.of_nat (length p)
        else bend st in
      slice p (bstart st) e
  else
    let '(start, e, _) := basename_plain_loop p (length p) (0, -1, true)%Z in
    if (e =? -1)%Z then [] else slice p start e.

(** *** [path.normalize], [path.join], [path.resolve] *)

(** [s.split('/')] *)
Fixpoint split_sep (s : jsstring) : list jsstring :=
  match s with
  | [] => [[]]
  | c :: s' =>
    if c =? CHAR_FORWARD_SLASH then [] :: split_sep s'
    else match split_sep s' with
         | seg :: segs => (c :: seg) :: segs
         | [] => [[c]]
         end
  end.

(** [segs.join('/')] *)
Definition join_sep (segs : list jsstring) : jsstring :=
  match segs with
  | [] => []
  | seg :: rest => seg ++ flat_map (fun x => CHAR_FORWARD_SLASH :: x) rest
  end.

(** What [normalizeString] does when it reaches the separator that closes
    the segment [seg]; [res] holds the segments of the result so far, the
    last one first.  An empty segment and [.] are dropped; [..] removes the
    last segment of the result unless there is none or it is [..] itself,
    in which case it is kept only when [allowAboveRoot]; any other segment
    is appended. *)
Definition normalize_segment (allowAboveRoot : bool)
    (res : list jsstring) (seg : jsstring) : list jsstring :=
  if bool_decide (seg = []) || bool_decide (seg = [CHAR_DOT]) then res
  else if bool_decide (seg = [CHAR_DOT; CHAR_DOT]) then
    match res with
    | top :: res' =>
      if bool_decide (top = [CHAR_DOT; CHAR_DOT])
      then (if allowAboveRoot then seg :: res else res)
      else res'
    | [] => if allowAboveRoot then [seg] else []
    end
  else seg :: res.

(** [normalizeString(path, allowAboveRoot, '/', isPosixPathSeparator)],
    segment by segment. *)
Definition normalizeString (p : jsstring) (allowAboveRoot : bool) : jsstring :=
  join_sep (rev (fold_left (normalize_segment allowAboveRoot) (split_sep p) [])).

Definition isAbsolute (p : jsstring) : bool :=
  match p with
  | c :: _ => c =? CHAR_FORWARD_SLASH
  | [] => false
  end.

Definition normalize (p : jsstring) : jsstring :=
  if (length p =? 0)%nat then [CHAR_DOT]
  else
    let trailingSeparator := charCodeAt p (length p - 1) =? CHAR_FORWARD_SLASH in
    let p' := normalizeString p (negb (isAbsolute p)) in
    if (length p' =? 0)%nat then
      if isAbsolute p then [CHAR_FORWARD_SLASH]
      else if trailingSeparator then [CHAR_DOT; CHAR_FORWARD_SLASH] else [CHAR_DOT]
    else
      let p'' := if trailingSeparator then p' ++ [CHAR_FORWARD_SLASH] else p' in
      if isAbsolute p then CHAR_FORWARD_SLASH :: p'' else p''.

(** [path.join(...args)]: the non-empty arguments joined by [/], then
    normalized. *)
Definition join (args : list jsstring) : jsstring :=
  match filter (fun arg => (0 < length arg)%nat) args with
  | [] => [CHAR_DOT]
  | joined => normalize (join_sep joined)
  end.

(** The loop of [path.resolve] over the arguments from the last to the
    first and then the working directory, until an absolute one is met. *)
Fixpoint resolve_loop (paths : list jsstring) (resolvedPath : jsstring)
    : jsstring * bool :=
  match paths with
  | [] => (resolvedPath, false)
  | p :: rest =>
    if (length p =? 0)%nat then resolve_loop rest resolvedPath
    else
      let resolvedPath := p ++ CHAR_FORWARD_SLASH :: resolvedPath in
      if charCodeAt p 0 =? CHAR_FORWARD_SLASH then (resolvedPath, true)
      else resolve_loop rest resolvedPath
  end.

(** [path.resolve(...args)] in a process whose working directory is
    [cwd]. *)
Definition resolve (cwd : jsstring) (args : list jsstring) : jsstring :=
  let '(resolvedPath, resolvedAbsolute) := resolve_loop (rev args ++ [cwd]) [] in
  let resolvedPath := normalizeString resolvedPath (negb resolvedAbsolute) in
  if resolvedAbsolute then CHAR_FORWARD_SLASH :: resolvedPath
  else if (0 <? length resolvedPath)%nat then resolvedPath
  else [CHAR_DOT].

End path.

(** ** Helper functions for security (server.js, lines 45-105) *)

(** [.replace(/[^a-zA-Z0-9._-]/g, '_')] *)
Definition is_valid_char (c : N) : bool :=
  ((97 <=? c) && (c <=? 122)) || ((65 <=? c) && (c <=? 90))
  || ((48 <=? c) && (c <=? 57))
  || (c =? CHAR_DOT) || (c =? CHAR_UNDERSCORE) || (c =? 45).

Definition replace_invalid (s : jsstring) : jsstring :=
  map (fun c => if is_valid_char c then c else CHAR_UNDERSCORE) s.

(** [.replace(/\.\./g, '')]: one pass from the left over the
    non-overlapping matches. *)
Fixpoint replace_dotdot (s : jsstring) : jsstring :=
  match s with
  | [] => []
  | c :: tl =>
    match tl with
    | d :: rest =>
      if (c =? CHAR_DOT) && (d =? CHAR_DOT) then replace_dotdot rest
      else c :: replace_dotdot tl
    | [] => [c]
    end
  end.

(** [.replace(/^\.+/, '')] *)
Fixpoint replace_leading_dots (s : jsstring) : jsstring :=
  match s with
  | c :: s' => if c =? CHAR_DOT then replace_leading_dots s' else s
  | [] => []
  end.

(** [buf.toString('hex')] *)
Definition hex_digit (n : N) : N :=
  if n <? 10 then 48 + n else 87 + n.

Definition toString_hex (buf : list byte) : jsstring :=
  flat_map (fun b => [hex_digit (Byte.to_N b / 16); hex_digit (Byte.to_N b mod 16)]) buf.

(** The local variable [sanitized] of [sanitizeFileName]. *)
Definition sanitized_of (fileName : jsstring) : jsstring :=
  trim (replace_leading_dots (replace_dotdot (replace_invalid fileName))).

(** [sanitizeFileName(fileName)]; [rnd] is the buffer that
    [crypto.randomBytes(8)] returns in this call. *)
Definition sanitizeFileName (fileName : jsstring) (rnd : list byte) : jsstring :=
  let sanitized := sanitized_of fileName in
  let hash := toString_hex rnd in
  let ext := path.extname sanitized in
  let nameWithoutExt := path.basename sanitized ext in
  nameWithoutExt ++ js "_" ++ hash ++ ext.

(** [isAllowedMimeType(mimetype)] *)
Definition isAllowedMimeType (mimetype : jsstring) : bool :=
  array_includes ALLOWED_MIME_TYPES mimetype.

(** [s.toLowerCase()] on the ASCII letters; other code units are kept.  The
    engine's Unicode mapping differs from this one only on code units
    outside ASCII, and maps none of them into the letters of
    [ALLOWED_EXTENSIONS] (U+212A gives [k], U+0130 gives [i] followed by
    U+0307), so that [isAllowedExtension] below returns what the server
    computes. *)
Definition toLowerCase (s : jsstring) : jsstring :=
  map (fun c => if (65 <=? c) && (c <=? 90) then c + 32 else c) s.

(** [isAllowedExtension(filename)] *)
Definition isAllowedExtension (filename : jsstring) : bool :=
  let ext := toLowerCase (path.extname filename) in
  array_includes ALLOWED_EXTENSIONS ext.

(** [checkRateLimit(ip)]; [now] is what [Date.now()] returns in this call
    and the map is the module-level [uploadAttempts], returned updated. *)
Definition checkRateLimit (now : Z) (ip : jsstring)
    (uploadAttempts : gmap jsstring (list Z)) : bool * gmap jsstring (list Z) :=
  let userAttempts := default [] (uploadAttempts !! ip) in
  let recentAttempts :=
    filter (fun timestamp => (now - timestamp < RATE_LIMIT_WINDOW)%Z) userAttempts in
  if decide (MAX_UPLOADS_PER_MINUTE <= length recentAttempts)%nat
  then (false, uploadAttempts)
  else (true, <[ip := recentAttempts ++ [now]]> uploadAttempts).

(** The file object multer hands to the route ([req.file]). *)
Record req_file := mk_req_file {
  originalname : jsstring;
  mimetype : jsstring;
  filename : jsstring;
  file_path : jsstring;
  size : Z
}.

(** [checkFileSize(file)] *)
Definition checkFileSize (file : req_file) : bool :=
  (size file <=? MAX_FILE_SIZE)%Z.

(** ** The server: disk, multer, middleware and routes *)

(** The files on disk, by absolute path: a disk without symbolic links
    ([Linked], below, has them). *)
Abbreviation disk := (gmap jsstring (list byte)).

(** The [error] strings of the JSON replies. *)
Inductive error_message :=
| TooManyUploads        (* 'Zu viele Upload-Versuche. ...' *)
| ExtensionNotAllowed   (* `Dateityp nicht erlaubt. Erlaubte Typen: ...` *)
| MimeTypeNotAllowed    (* `MIME-Type nicht erlaubt. Erlaubte Typen: ...` *)
| FileTooLarge          (* `Datei zu groß. Maximale Größe: 5 MB` *)
| UploadError           (* 'Upload-Fehler: ' + err.message *)
| NoFileUploaded        (* 'Keine Datei hochgeladen' *)
| UploadFailed          (* 'Fehler beim Hochladen der Datei: ' + error.message *)
| FileNotFound          (* 'Datei nicht gefunden' *)
| AccessDenied.         (* 'Zugriff verweigert' *)

Inductive reply :=
| Json (status : Z) (error : error_message)
    (* res.status(status).json({ success: false, error }) *)
| Uploaded (originalName filename_ : jsstring) (size_ : Z) (mimetype_ path_ : jsstring)
    (* res.json({ success: true, message, file: {...} }), status 200 *)
| SentFile (p : jsstring) (content : list byte).
    (* res.sendFile(p), status 200 *)

Definition status_of (r : reply) : Z :=
  match r with
  | Json status _ => status
  | Uploaded _ _ _ _ _ => 200
  | SentFile _ _ => 200
  end.

(** The file part of a multipart request, as multer receives it. *)
Record file_part := mk_file_part {
  fieldname : jsstring;
  part_originalname : jsstring;
  part_mimetype : jsstring;
  data : list byte
}.

(** The fields of a request that [getClientIp] reads, and the file part. *)
Record request := mk_request {
  req_ip : option jsstring;
  x_forwarded_for : option jsstring;
  x_real_ip : option jsstring;
  connection_remoteAddress : option jsstring;
  socket_remoteAddress : option jsstring;
  part : option file_part
}.

(** [a || b] where [a] is a string or [undefined]. *)
Definition or_else (a : option jsstring) (b : jsstring) : jsstring :=
  match a with
  | Some (c :: s) => c :: s
  | _ => b
  end.

Fixpoint before_comma (s : jsstring) : jsstring :=
  match s with
  | c :: s' => if c =? 44 then [] else c :: before_comma s'
  | [] => []
  end.

(** [getClientIp(req)] *)
Definition getClientIp (req : request) : jsstring :=
  or_else (req_ip req)
    (or_else ((fun h => trim (before_comma h)) <$> x_forwarded_for req)
       (or_else (x_real_ip req)
          (or_else (connection_remoteAddress req)
             (or_else (socket_remoteAddress req) (js "unknown"))))).

(** The [fileFilter] of the multer configuration: [None] is
    [cb(null, true)], [Some e] is [cb(new Error(e))]. *)
Definition fileFilter (file : file_part) : option error_message :=
  if negb (isAllowedExtension (part_originalname file)) then Some ExtensionNotAllowed
  else if negb (isAllowedMimeType (part_mimetype file)) then Some MimeTypeNotAllowed
  else None.

Inductive multer_code := LIMIT_FILE_SIZE | LIMIT_UNEXPECTED_FILE.

Inductive multer_result :=
| MulterError (code : multer_code)      (* err instanceof multer.MulterError *)
| FilterError (e : error_message)       (* the error of fileFilter *)
| MulterDone (file : option req_file).  (* no error; req.file *)

Record server_state := mk_server_state {
  uploadAttempts : gmap jsstring (list Z);
  files : disk
}.

Section Server.

(** [process.cwd()] and the directory of [server.js]. *)
Variable cwd : jsstring.
Variable __dirname : jsstring.

Definition uploadDir : jsstring := path.join [__dirname; js "uploads"].

(** [fs.existsSync(p)] *)
Definition existsSync (d : disk) (p : jsstring) : bool :=
  bool_decide (is_Some (d !! path.resolve cwd [p])).

(** [fs.unlinkSync(p)]; [None] when it throws (no such file). *)
Definition unlinkSync (d : disk) (p : jsstring) : option disk :=
  if existsSync d p then Some (delete (path.resolve cwd [p]) d) else None.

(** [upload.single('file')] with the [storage], [limits] and [fileFilter]
    of the configuration, after multer's documentation: a file in another
    field is refused; [fileFilter] runs before anything is written; the
    file goes to [destination/filename]; when the stream passes
    [limits.fileSize] the part written so far is removed and the error is
    [LIMIT_FILE_SIZE]; otherwise [req.file.size] is the number of bytes
    written. *)
Definition upload_single (rnd : list byte) (p : option file_part) (d : disk)
    : multer_result * disk :=
  match p with
  | None => (MulterDone None, d)
  | Some f =>
    if negb (bool_decide (fieldname f = js "file"))
    then (MulterError LIMIT_UNEXPECTED_FILE, d)
    else
      match fileFilter f with
      | Some e => (FilterError e, d)
      | None =>
        let sanitized := sanitizeFileName (part_originalname f) rnd in
        let dest := path.join [uploadDir; sanitized] in
        let target := path.resolve cwd [dest] in
        if (MAX_FILE_SIZE <? Z.of_nat (length (data f)))%Z
        then (MulterError LIMIT_FILE_SIZE,
              delete target (<[target := take (Z.to_nat MAX_FILE_SIZE) (data f)]> d))
        else (MulterDone
                (Some (mk_req_file (part_originalname f) (part_mimetype f)
                         sanitized dest (Z.of_nat (length (data f))))),
              <[target := data f]> d)
      end
  end.

(** Where multer writes the file of an upload. *)
Definition upload_target (f : file_part) (rnd : list byte) : jsstring :=
  path.resolve cwd
    [path.join [uploadDir; sanitizeFileName (part_originalname f) rnd]].

(** The [catch] block of the upload route. *)
Definition upload_catch (file : req_file) (d : disk) : reply * disk :=
  let d' :=
    if existsSync d (file_path file)
    then default d (unlinkSync d (file_path file))
    else d in
  (Json 500 UploadFailed, d').

(** The final handler of [POST /upload] (server.js, lines 245-296). *)
Definition upload_handler (file : option req_file) (d : disk) : reply * disk :=
  match file with
  | None => (Json 400 NoFileUploaded, d)
  | Some f =>
    if negb (checkFileSize f) then
      match unlinkSync d (file_path f) with
      | Some d' => (Json 400 FileTooLarge, d')
      | None => upload_catch f d
      end
    else
      (Uploaded (originalname f) (filename f) (size f) (mimetype f)
         (js "/uploads/" ++ filename f), d)
  end.

(** [POST /upload]: the rate-limiting middleware, the multer handler with
    its error replies, and the final handler; the reply of a request that
    is answered before the timer of lines 202-210 fires. *)
Definition post_upload (now : Z) (rnd : list byte) (req : request)
    (st : server_state) : reply * server_state :=
  let clientIp := getClientIp req in
  let '(allowed, attempts) := checkRateLimit now clientIp (uploadAttempts st) in
  if negb allowed then (Json 429 TooManyUploads, mk_server_state attempts (files st))
  else
    let '(res, d) := upload_single rnd (part req) (files st) in
    let '(r, d') :=
      match res with
      | MulterError LIMIT_FILE_SIZE => (Json 400 FileTooLarge, d)
      | MulterError _ => (Json 400 UploadError, d)
      | FilterError e => (Json 400 e, d)
      | MulterDone file => upload_handler file d
      end in
    (r, mk_server_state attempts d').

(** [res.sendFile(p)] for an absolute path that express serves
    ([Linked.sendFile] has the paths it refuses). *)
Definition sendFile (d : disk) (p : jsstring) : reply :=
  match d !! p with
  | Some content => SentFile p content
  | None => Json 404 FileNotFound
  end.

(** [GET /uploads/:filename] after the sanitizer (server.js, lines
    301-321). *)
Definition serve_upload (filename : jsstring) (d : disk) : reply :=
  let filePath := path.join [uploadDir; filename] in
  if negb (existsSync d filePath) then Json 404 FileNotFound
  else
    let resolvedPath := path.resolve cwd [filePath] in
    let resolvedDir := path.resolve cwd [uploadDir] in
    if negb (startsWith resolvedPath resolvedDir) then Json 403 AccessDenied
    else sendFile d (path.resolve cwd [filePath]).

(** [GET /uploads/:filename] *)
Definition get_upload (rnd : list byte) (requested : jsstring) (d : disk) : reply :=
  let filename := sanitizeFileName requested rnd in
  serve_upload filename d.

End Server.

(** ** [GET /uploads/:filename] on a disk with symbolic links

    [fs.existsSync] and [res.sendFile] follow symbolic links;
    [path.resolve] does not, it works on the path as a string.  [Linked]
    has the route over a disk that tells, for an absolute path, what is
    found there once the links on the way are followed. *)

Module Linked.

(** What is found at a path: a regular file, with its canonical path
    ([fs.realpathSync]) and its contents, or a directory. *)
Inductive entry :=
| RegularFile (realpath : jsstring) (content : list byte)
| Directory (realpath : jsstring).

Abbreviation disk := (gmap jsstring entry).

Inductive reply :=
| Json (status : Z) (error : error_message)
    (* res.status(status).json({ success: false, error }) *)
| SentFile (p realpath : jsstring) (content : list byte)
    (* res.sendFile(p) serves the file found at p *)
| Next.
    (* res.sendFile(p) serves nothing and calls next: a handler
       registered after the route replies *)

(** The [dotfiles] rule of [res.sendFile] when it ignores dotfiles: a path
    with a component of more than one code unit that starts with a dot
    is not served. *)
Definition containsDotFile (p : jsstring) : bool :=
  existsb (fun part => (1 <? length part)%nat && (charCodeAt part 0 =? CHAR_DOT))
    (path.split_sep p).

Section Server.

(** The paths that [res.sendFile] of the installed express refuses to
    serve. *)
Variable send_refuses : jsstring -> bool.

(** [process.cwd()] and the directory of [server.js]. *)
Variable cwd : jsstring.
Variable __dirname : jsstring.

(** [fs.existsSync(p)] *)
Definition existsSync (d : disk) (p : jsstring) : bool :=
  bool_decide (is_Some (d !! path.resolve cwd [p])).

(** [res.sendFile(p)] for an absolute path, in a request without [Range]
    or conditional headers. *)
Definition sendFile (d : disk) (p : jsstring) : reply :=
  if send_refuses p then Next
  else
    match d !! p with
    | Some (RegularFile realpath content) => SentFile p realpath content
    | Some (Directory _) => Next
    | None => Next
    end.

(** [GET /uploads/:filename] after the sanitizer (server.js, lines
    301-321). *)
Definition serve_upload (filename : jsstring) (d : disk) : reply :=
  let filePath := path.join [uploadDir __dirname; filename] in
  if negb (existsSync d filePath) then Json 404 FileNotFound
  else
    let resolvedPath := path.resolve cwd [filePath] in
    let resolvedDir := path.resolve cwd [uploadDir __dirname] in
    if negb (startsWith resolvedPath resolvedDir) then Json 403 AccessDenied
    else sendFile d (path.resolve cwd [filePath]).

(** [GET /uploads/:filename] *)
Definition get_upload (rnd : list byte) (requested : jsstring) (d : disk) : reply :=
  let filename := sanitizeFileName requested rnd in
  serve_upload filename d.

End Server.

End Linked.

(** ** The sanitizer of the specification (section 4.3)

    A second definition that follows the specification's words, to be
    compared with [sanitizeFileName]. *)

Module Reference.

(** "replace every character outside [A-Za-z0-9._-] with [_]" *)
Definition in_class (c : N) : bool :=
  ((65 <=? c) && (c <=? 90)) || ((97 <=? c) && (c <=? 122))
  || ((48 <=? c) && (c <=? 57)) || (c =? 46) || (c =? 95) || (c =? 45).

Definition replace_outside_class (s : jsstring) : jsstring :=
  map (fun c => if in_class c then c else 95) s.

(** "remove all [..] substrings": the first occurrence is removed, again
    and again, until none is left. *)
Fixpoint remove_first_dotdot (s : jsstring) : jsstring :=
  match s with
  | [] => []
  | c :: tl =>
    match tl with
    | d :: rest => if (c =? 46) && (d =? 46) then rest else c :: remove_first_dotdot tl
    | [] => [c]
    end
  end.

Fixpoint remove_all_dotdot (fuel : nat) (s : jsstring) : jsstring :=
  if includes s [46; 46] then
    match fuel with
    | O => s
    | S fuel' => remove_all_dotdot fuel' (remove_first_dotdot s)
    end
  else s.

(** "strip leading [.] characters" *)
Fixpoint strip_leading_dots (s : jsstring) : jsstring :=
  match s with
  | [] => []
  | c :: rest => if bool_decide (c = 46) then strip_leading_dots rest else c :: rest
  end.

(** "split the result into base name and extension": the extension starts
    at the last [.] and is empty when there is none. *)
Definition split_ext (s : jsstring) : jsstring * jsstring :=
  match lastIndexOf s 46 with
  | Some k => (take k s, drop k s)
  | None => (s, [])
  end.

(** "append a random hexadecimal suffix to the base name; reassemble as
    [base_suffix.ext]" *)
Definition sanitize (rawName suffix : jsstring) : jsstring :=
  let s := strip_leading_dots
             (remove_all_dotdot (length rawName) (replace_outside_class rawName)) in
  let '(base, ext) := split_ext s in
  base ++ [95] ++ suffix ++ ext.

Definition is_hex_digit (c : N) : bool :=
  ((48 <=? c) && (c <=? 57)) || ((97 <=? c) && (c <=? 102)).

End Reference.

(** ** Definitions for the statements and the proofs *)

(** No two dots in a row, as a structural check. *)
Fixpoint no_dotdot (s : jsstring) : bool :=
  match s with
  | [] => true
  | c :: tl =>
    match tl with
    | d :: _ => negb ((c =? CHAR_DOT) && (d =? CHAR_DOT)) && no_dotdot tl
    | [] => true
    end
  end.

Definition valid (s : jsstring) : Prop := Forall (fun c => is_valid_char c = true) s.

(** What the variable [sanitized] satisfies: valid characters only, no two
    dots in a row, no dot in front. *)
Definition clean (s : jsstring) : Prop :=
  valid s /\ no_dotdot s = true /\ head s <> Some CHAR_DOT.

Definition slash_free (s : jsstring) : Prop :=
  Forall (fun c => c <> CHAR_FORWARD_SLASH) s.

(** The iterations of the loop of [extname] over the code units of [s],
    the last one first; [i] is the index of the first. *)
Fixpoint extname_steps (i : nat) (s : jsstring) (st : path.extname_state)
    : path.extname_state :=
  match s with
  | [] => st
  | c :: s' => path.extname_step (Z.of_nat i) c (extname_steps (S i) s' st)
  end.

Definition Z_of_index (o : option nat) (i : nat) : Z :=
  match o with
  | Some k => Z.of_nat (i + k)
  | None => -1
  end.

Definition preDotState_of (s : jsstring) : Z :=
  match lastIndexOf s CHAR_DOT, s with
  | Some (S _), c :: _ => if c =? CHAR_DOT then 1 else -1
  | _, _ => 0
  end.

(** The iterations of the loop of [basename] with a suffix. *)
Fixpoint basename_steps (suffix : jsstring) (i : nat) (s : jsstring)
    (st : path.basename_state) : path.basename_state :=
  match s with
  | [] => st
  | c :: s' =>
    path.basename_step suffix (Z.of_nat i) c (basename_steps suffix (S i) s' st)
  end.

(** A segment that [normalizeString] keeps as it is. *)
Definition proper (seg : jsstring) : Prop :=
  seg <> [] /\ seg <> [CHAR_DOT] /\ seg <> [CHAR_DOT; CHAR_DOT] /\ slash_free seg.

(** An absolute path in normal form: [/] followed by proper segments. *)
Definition rooted (segs : list jsstring) : jsstring :=
  CHAR_FORWARD_SLASH :: path.join_sep segs.

(** A call of [checkRateLimit], with its result. *)
Record attempt := mk_attempt {
  at_time : Z;
  at_ip : jsstring;
  at_allowed : bool
}.

(** The calls since the server started ([uploadAttempts] is empty then),
    each with what [Date.now()] returns in it; the result is the log of the
    calls and the final [uploadAttempts]. *)
Fixpoint run_checks (calls : list (Z * jsstring)) (m : gmap jsstring (list Z))
    : list attempt * gmap jsstring (list Z) :=
  match calls with
  | [] => ([], m)
  | (now, ip) :: rest =>
    let '(allowed, m') := checkRateLimit now ip m in
    let '(log, m'') := run_checks rest m' in
    (mk_attempt now ip allowed :: log, m'')
  end.

(** The timestamps of [ts] inside the window that ends at [now]. *)
Definition in_window (now : Z) (ts : list Z) : list Z :=
  filter (fun t => (now - t < RATE_LIMIT_WINDOW)%Z) ts.

(** The times of the calls of a client, and of those that returned
    [true]. *)
Definition attempts_of (ip : jsstring) (log : list attempt) : list Z :=
  at_time <$> filter (fun a => at_ip a = ip) log.

Definition accepted_of (ip : jsstring) (log : list attempt) : list Z :=
  at_time <$> filter (fun a => at_ip a = ip /\ at_allowed a = true) log.

(** The list stored for a client. *)
Definition stored (ip : jsstring) (m : gmap jsstring (list Z)) : list Z :=
  default [] (m !! ip).

(** The clock does not go backwards: each [Date.now()] is at least the
    previous one. *)
Definition clock_monotone (times : list Z) : Prop := StronglySorted Z.le times.

Definition bounded (m : gmap jsstring (list Z)) : Prop :=
  forall ip, (length (stored ip m) <= MAX_UPLOADS_PER_MINUTE)%nat.

(** [q] lies below the directory [dir]. *)
Definition is_descendant (dir q : jsstring) : bool :=
  startsWith q (dir ++ [CHAR_FORWARD_SLASH]).

(** A disk without symbolic links as a linked disk: every file is found
    at its own canonical path. *)
Definition plain (d : disk) : Linked.disk :=
  map_imap (fun p content => Some (Linked.RegularFile p content)) d.

(** ** The second upload server (src/unnamed/part_000) *)

(** [String(n)] for an integer. *)
Definition number_toString (n : Z) : jsstring :=
  js (DecimalString.NilZero.string_of_int (Z.to_int n)).

Module Part000.

Definition ALLOWED_MIME_TYPES : list jsstring :=
  [ js "image/png"; js "image/jpeg"; js "image/gif"; js "application/pdf" ].

Definition UPLOAD_DIR (__dirname : jsstring) : jsstring :=
  path.join [__dirname; js "uploads"].

(** The [filename] function of the storage; [now] is what [Date.now()]
    returns and [random] what [Math.round(Math.random() * 1e9)] gives in
    this call. *)
Definition filename (now random : Z) (file : file_part) : jsstring :=
  let uniqueSuffix := number_toString now ++ js "-" ++ number_toString random in
  let ext := toLowerCase (path.extname (part_originalname file)) in
  let safeName := fieldname file ++ js "-" ++ uniqueSuffix ++ ext in
  safeName.

(** [fileFilter]: [false] is [cb(new Error('Unsupported file type'))]. *)
Definition fileFilter (file : file_part) : bool :=
  if negb (array_includes ALLOWED_MIME_TYPES (part_mimetype file)) then false
  else true.

End Part000.

(** The decimal digits. *)
Definition is_digit (c : N) : bool := (48 <=? c) && (c <=? 57).

(** What the loop of [extname] keeps true before it looks at index
    [n - 1]: the code units from [n] to [end] are no separators, and the
    dot found so far lies among them. *)
Definition extname_inv (p : jsstring) (n : nat) (st : path.extname_state) : Prop :=
  (path.end_ st = (-1)%Z /\ path.startDot st = (-1)%Z /\ path.matchedSlash st = true)
  \/ (path.matchedSlash st = false
      /\ (Z.of_nat n <= path.end_ st <= Z.of_nat (length p))%Z
      /\ (path.startDot st = (-1)%Z
          \/ (Z.of_nat n <= path.startDot st < path.end_ st)%Z)
      /\ forall j, (Z.of_nat n <= Z.of_nat j < path.end_ st)%Z ->
                   charCodeAt p j <> CHAR_FORWARD_SLASH).

Definition extname_post (p : jsstring) (st : path.extname_state) : Prop :=
  path.end_ st = (-1)%Z \/ path.startDot st = (-1)%Z
  \/ ((0 <= path.startDot st < path.end_ st)%Z
      /\ (path.end_ st <= Z.of_nat (length p))%Z
      /\ forall j, (path.startDot st <= Z.of_nat j < path.end_ st)%Z ->
                   charCodeAt p j <> CHAR_FORWARD_SLASH).

(** A value that [||] skips: [undefined] or the empty string. *)
Definition falsy (a : option jsstring) : Prop := a = None \/ a = Some [].

(** What [toLowerCase] does to one code unit. *)
Definition lower_char (c : N) : N :=
  if (65 <=? c) && (c <=? 90) then c + 32 else c.

(** * Verification *)

(** ** The examples of Node's documentation for [path] *)

Example extname_index_html : path.extname (js "index.html") = js ".html".
Proof. reflexivity. Qed.

Example extname_index_coffee_md : path.extname (js "index.coffee.md") = js ".md".
Proof. reflexivity. Qed.

Example extname_index_dot : path.extname (js "index.") = js ".".
Proof. reflexivity. Qed.

Example extname_index : path.extname (js "index") = js "".
Proof. reflexivity. Qed.

Example extname_dot_index : path.extname (js ".index") = js "".
Proof. reflexivity. Qed.

Example extname_dot_index_md : path.extname (js ".index.md") = js ".md".
Proof. reflexivity. Qed.

Example basename_quux :
  path.basename (js "/foo/bar/baz/asdf/quux.html") (js ".html") = js "quux".
Proof. reflexivity. Qed.

Example normalize_foo :
  path.normalize (js "/foo/bar//baz/asdf/quux/..") = js "/foo/bar/baz/asdf".
Proof. reflexivity. Qed.

Example join_foo :
  path.join [js "/foo"; js "bar"; js "baz/asdf"; js "quux"; js ".."]
  = js "/foo/bar/baz/asdf".
Proof. reflexivity. Qed.

Example resolve_foo :
  path.resolve (js "/home/myself/node") [js "/foo/bar"; js "./baz"] = js "/foo/bar/baz".
Proof. reflexivity. Qed.

Example resolve_tmp :
  path.resolve (js "/home/myself/node") [js "/foo/bar"; js "/tmp/file/"] = js "/tmp/file".
Proof. reflexivity. Qed.

Example resolve_relative :
  path.resolve (js "/home/myself/node")
    [js "wwwroot"; js "static_files/png/"; js "../gif/image.gif"]
  = js "/home/myself/node/wwwroot/static_files/gif/image.gif".
Proof. reflexivity. Qed.

(** ** The server on examples *)

Example sanitizeFileName_report :
  sanitizeFileName (js "report.pdf") [x00; x01; xab; xff; x10; x9a; x7f; x80]
  = js "report_0001abff109a7f80.pdf".
Proof. reflexivity. Qed.

Example sanitizeFileName_traversal :
  sanitizeFileName (js "../../etc/passwd") [x00; x01; xab; xff; x10; x9a; x7f; x80]
  = js "__etc_passwd_0001abff109a7f80".
Proof. reflexivity. Qed.

Example sanitizeFileName_dots :
  sanitizeFileName (js "....a..b...c.") [x00; x01; xab; xff; x10; x9a; x7f; x80]
  = js "ab.c_0001abff109a7f80.".
Proof. reflexivity. Qed.

Example post_upload_report :
  (post_upload (js "/srv") (js "/srv/app") 1000 [x00; x01; xab; xff; x10; x9a; x7f; x80]
     (mk_request (Some (js "203.0.113.7")) None None None None
        (Some (mk_file_part (js "file") (js "report.pdf") (js "application/pdf")
                 [x25; x50; x44; x46])))
     (mk_server_state ∅ ∅)).1
  = Uploaded (js "report.pdf") (js "report_0001abff109a7f80.pdf") 4
      (js "application/pdf") (js "/uploads/report_0001abff109a7f80.pdf").
Proof. vm_compute. reflexivity. Qed.

(** The stored name, requested back, is sanitized again and not found. *)
Example get_upload_stored_name :
  let st := (post_upload (js "/srv") (js "/srv/app") 1000
               [x00; x01; xab; xff; x10; x9a; x7f; x80]
               (mk_request (Some (js "203.0.113.7")) None None None None
                  (Some (mk_file_part (js "file") (js "report.pdf")
                           (js "application/pdf") [x25; x50; x44; x46])))
               (mk_server_state ∅ ∅)).2 in
  files st !! js "/srv/app/uploads/report_0001abff109a7f80.pdf"
  = Some [x25; x50; x44; x46]
  /\ get_upload (js "/srv") (js "/srv/app") [x11; x22; x33; x44; x55; x66; x77; x88]
       (js "report_0001abff109a7f80.pdf") (files st)
     = Json 404 FileNotFound.
Proof. vm_compute. split; reflexivity. Qed.

(** Without the sanitizer, the guard on the resolved path is what stops a
    traversal. *)
Example serve_upload_traversal :
  serve_upload (js "/srv") (js "/srv/app") (js "../../../etc/passwd")
    (<[js "/etc/passwd" := [x72; x6f; x6f; x74]]> ∅)
  = Json 403 AccessDenied.
Proof. vm_compute. reflexivity. Qed.

(** The final handler removes a file that fails its size check. *)
Example upload_handler_removes :
  upload_handler (js "/srv")
    (Some (mk_req_file (js "big.pdf") (js "application/pdf") (js "big_00.pdf")
             (js "/srv/app/uploads/big_00.pdf") 6000000))
    (<[js "/srv/app/uploads/big_00.pdf" := [x25; x50]]> ∅)
  = (Json 400 FileTooLarge, ∅).
Proof. vm_compute. reflexivity. Qed.

(** ** Strings *)

#[local] Arguments N.eqb : simpl never.
#[local] Arguments N.leb : simpl never.
#[local] Arguments N.ltb : simpl never.

Lemma startsWith_spec (s p : jsstring) :
  startsWith s p = true <-> exists rest, s = p ++ rest.
Proof.
  revert s; induction p as [|c p IH]; intros s; simpl.
  - split; [intros _; now exists s | intros _; now destruct s].
  - destruct s as [|d s].
    + split; [discriminate | intros [rest H]; discriminate].
    + simpl. rewrite andb_true_iff, N.eqb_eq, IH. split.
      * intros [-> [rest ->]]. eauto.
      * intros [rest H]. injection H as -> ->. eauto.
Qed.

Lemma includes_spec (s p : jsstring) :
  includes s p = true <-> exists pre post, s = pre ++ p ++ post.
Proof.
  induction s as [|c s IH].
  - change (includes [] p) with (startsWith [] p || false).
    rewrite orb_false_r, startsWith_spec. split.
    + intros [rest H]. exists [], rest. exact H.
    + intros [pre [post H]]. destruct pre; [eauto|discriminate].
  - change (includes (c :: s) p) with (startsWith (c :: s) p || includes s p).
    rewrite orb_true_iff, IH, startsWith_spec. split.
    + intros [[rest H] | [pre [post H]]].
      * exists [], rest. exact H.
      * exists (c :: pre), post. simpl. now rewrite H.
    + intros [pre [post H]]. destruct pre as [|c' pre].
      * left. eauto.
      * right. injection H as -> ->. eauto.
Qed.

Lemma startsWith_app (p rest : jsstring) : startsWith (p ++ rest) p = true.
Proof. apply startsWith_spec. eauto. Qed.

Lemma no_dotdot_cons (c d : N) (tl : jsstring) :
  no_dotdot (c :: d :: tl)
  = negb ((c =? CHAR_DOT) && (d =? CHAR_DOT)) && no_dotdot (d :: tl).
Proof. reflexivity. Qed.

Lemma includes_dotdot (s : jsstring) :
  includes s [CHAR_DOT; CHAR_DOT] = negb (no_dotdot s).
Proof.
  induction s as [|c tl IH]; [reflexivity|].
  destruct tl as [|d tl]; [simpl; now rewrite andb_false_r|].
  change (includes (c :: d :: tl) [CHAR_DOT; CHAR_DOT])
    with (((CHAR_DOT =? c) && ((CHAR_DOT =? d) && true))
          || includes (d :: tl) [CHAR_DOT; CHAR_DOT]).
  rewrite IH, no_dotdot_cons.
  rewrite andb_true_r, (N.eqb_sym CHAR_DOT c), (N.eqb_sym CHAR_DOT d).
  destruct (c =? CHAR_DOT), (d =? CHAR_DOT), (no_dotdot (d :: tl)); reflexivity.
Qed.

Lemma no_dotdot_app (a b : jsstring) :
  no_dotdot a = true -> no_dotdot b = true ->
  (last a <> Some CHAR_DOT \/ head b <> Some CHAR_DOT) ->
  no_dotdot (a ++ b) = true.
Proof.
  induction a as [|c tl IH]; intros Ha Hb Hj; [exact Hb|].
  destruct tl as [|d tl].
  - destruct b as [|e b]; [reflexivity|].
    simpl app. rewrite no_dotdot_cons, Hb, andb_true_r.
    apply negb_true_iff, andb_false_iff.
    destruct Hj as [Hj | Hj]; [left | right]; apply N.eqb_neq; intros ->; now apply Hj.
  - rewrite no_dotdot_cons in Ha. apply andb_true_iff in Ha as [Ha1 Ha2].
    change ((c :: d :: tl) ++ b) with (c :: d :: (tl ++ b)).
    rewrite no_dotdot_cons, Ha1. simpl andb. apply IH; assumption.
Qed.

Lemma no_dotdot_app_inv (a b : jsstring) :
  no_dotdot (a ++ b) = true -> no_dotdot a = true /\ no_dotdot b = true.
Proof.
  induction a as [|c tl IH]; intros H; [auto|].
  destruct tl as [|d tl].
  - split; [reflexivity|]. destruct b as [|e b]; [reflexivity|].
    simpl app in H. rewrite no_dotdot_cons in H.
    now apply andb_true_iff in H as [_ H].
  - change ((c :: d :: tl) ++ b) with (c :: d :: (tl ++ b)) in H.
    rewrite no_dotdot_cons in H.
    apply andb_true_iff in H as [H1 H2]. destruct (IH H2) as [IH1 IH2].
    split; [|exact IH2]. now rewrite no_dotdot_cons, H1, IH1.
Qed.

(** ** The steps of the sanitizer *)

Ltac N_bool :=
  repeat match goal with
  | H : _ && _ = true |- _ => apply andb_true_iff in H; destruct H
  | H : _ || _ = true |- _ => apply orb_true_iff in H; destruct H
  | H : (_ =? _) = true |- _ => apply N.eqb_eq in H
  | H : (_ <=? _) = true |- _ => apply N.leb_le in H
  | H : (_ =? _) = false |- _ => apply N.eqb_neq in H
  | H : (_ <=? _) = false |- _ => apply N.leb_gt in H
  | |- _ && _ = false => apply andb_false_iff
  | |- _ || _ = false => apply orb_false_iff; split
  | |- (_ =? _) = false => apply N.eqb_neq
  end.

Lemma valid_char_not_white_space (c : N) :
  is_valid_char c = true -> is_white_space c = false.
Proof.
  unfold is_valid_char, is_white_space, CHAR_DOT, CHAR_UNDERSCORE. intros H.
  N_bool; subst; try lia; try reflexivity;
    try (left; apply N.leb_gt; lia); try (right; apply N.leb_gt; lia).
Qed.

Lemma valid_char_not_slash (c : N) :
  is_valid_char c = true -> c <> CHAR_FORWARD_SLASH /\ c <> CHAR_BACKWARD_SLASH.
Proof.
  unfold is_valid_char, CHAR_DOT, CHAR_UNDERSCORE, CHAR_FORWARD_SLASH,
    CHAR_BACKWARD_SLASH. intros H.
  N_bool; subst; split; lia.
Qed.

Lemma replace_invalid_valid (s : jsstring) : valid (replace_invalid s).
Proof.
  unfold valid, replace_invalid. apply Forall_forall. intros c Hc.
  apply list_elem_of_fmap in Hc as [d [-> _]].
  destruct (is_valid_char d) eqn:E; [exact E | reflexivity].
Qed.

Lemma replace_invalid_id (s : jsstring) : valid s -> replace_invalid s = s.
Proof.
  induction 1 as [|c s Hc _ IH]; [reflexivity|].
  unfold replace_invalid in *. simpl. now rewrite Hc, IH.
Qed.

Lemma replace_dotdot_cons_other (c : N) (s : jsstring) :
  c <> CHAR_DOT -> replace_dotdot (c :: s) = c :: replace_dotdot s.
Proof.
  intros Hc. destruct s as [|d s]; [reflexivity|].
  change (replace_dotdot (c :: d :: s))
    with (if (c =? CHAR_DOT) && (d =? CHAR_DOT) then replace_dotdot s
          else c :: replace_dotdot (d :: s)).
  apply N.eqb_neq in Hc. now rewrite Hc.
Qed.

Lemma replace_dotdot_cons (c d : N) (s : jsstring) :
  replace_dotdot (c :: d :: s)
  = if (c =? CHAR_DOT) && (d =? CHAR_DOT) then replace_dotdot s
    else c :: replace_dotdot (d :: s).
Proof. reflexivity. Qed.

(** Induction two elements at a time, as [replace_dotdot] recurses. *)
Lemma pair_induction (P : jsstring -> Prop) :
  P [] -> (forall c, P [c]) ->
  (forall c d s, P s -> P (d :: s) -> P (c :: d :: s)) ->
  forall s, P s.
Proof.
  intros H0 H1 H2 s.
  assert (P s /\ forall c, P (c :: s)) as [H _]; [|exact H].
  induction s as [|d s [IH1 IH2]]; [auto|].
  split; [apply IH2|]. intros c. apply H2; auto.
Qed.

Lemma replace_dotdot_valid (s : jsstring) : valid s -> valid (replace_dotdot s).
Proof.
  unfold valid. induction s as [| c | c d s IH1 IH2] using pair_induction;
    intros H; [constructor | exact H |].
  rewrite replace_dotdot_cons.
  inversion H as [|? ? Hc H']; subst. inversion H' as [|? ? Hd H'']; subst.
  destruct ((c =? CHAR_DOT) && (d =? CHAR_DOT)); [auto|].
  constructor; auto.
Qed.

Lemma replace_dotdot_no_dotdot (s : jsstring) : no_dotdot (replace_dotdot s) = true.
Proof.
  induction s as [| c | c d s IH1 IH2] using pair_induction; try reflexivity.
  rewrite replace_dotdot_cons.
  destruct (c =? CHAR_DOT) eqn:Ec; destruct (d =? CHAR_DOT) eqn:Ed; simpl andb; cbv iota.
  - exact IH1.
  - assert (d <> CHAR_DOT) as Hd by now apply N.eqb_neq.
    rewrite replace_dotdot_cons_other in * by exact Hd.
    rewrite no_dotdot_cons, Ed, andb_false_r. exact IH2.
  - destruct (replace_dotdot (d :: s)) as [|e t]; [reflexivity|].
    now rewrite no_dotdot_cons, Ec, IH2.
  - destruct (replace_dotdot (d :: s)) as [|e t]; [reflexivity|].
    now rewrite no_dotdot_cons, Ec, IH2.
Qed.

Lemma replace_dotdot_id (s : jsstring) : no_dotdot s = true -> replace_dotdot s = s.
Proof.
  induction s as [| c | c d s IH1 IH2] using pair_induction; try reflexivity.
  rewrite no_dotdot_cons, replace_dotdot_cons. intros H.
  apply andb_true_iff in H as [H1 H2]. apply negb_true_iff in H1.
  now rewrite H1, IH2.
Qed.

Lemma replace_leading_dots_suffix (s : jsstring) :
  exists pre, s = pre ++ replace_leading_dots s.
Proof.
  induction s as [|c s [pre IH]]; [now exists []|]. simpl.
  destruct (c =? CHAR_DOT).
  - exists (c :: pre). simpl. now rewrite <- IH.
  - now exists [].
Qed.

Lemma replace_leading_dots_head (s : jsstring) :
  head (replace_leading_dots s) <> Some CHAR_DOT.
Proof.
  induction s as [|c s IH]; [discriminate|]. simpl.
  destruct (c =? CHAR_DOT) eqn:E; [exact IH|].
  simpl. intros [= ->]. discriminate.
Qed.

Lemma replace_leading_dots_id (s : jsstring) :
  head s <> Some CHAR_DOT -> replace_leading_dots s = s.
Proof.
  destruct s as [|c s]; [reflexivity|]. simpl. intros H.
  destruct (c =? CHAR_DOT) eqn:E; [|reflexivity].
  apply N.eqb_eq in E. now subst.
Qed.

Lemma trimStart_valid (s : jsstring) : valid s -> trimStart s = s.
Proof.
  destruct 1 as [|c s Hc _]; [reflexivity|]. simpl.
  now rewrite (valid_char_not_white_space c Hc).
Qed.

Lemma trim_valid (s : jsstring) : valid s -> trim s = s.
Proof.
  intros H. unfold trim. rewrite (trimStart_valid s H).
  rewrite trimStart_valid; [apply rev_involutive|].
  unfold valid. now apply Forall_rev.
Qed.

Lemma sanitized_of_clean (fileName : jsstring) : clean (sanitized_of fileName).
Proof.
  unfold sanitized_of.
  pose proof (replace_dotdot_valid _ (replace_invalid_valid fileName)) as Hv.
  pose proof (replace_dotdot_no_dotdot (replace_invalid fileName)) as Hd.
  destruct (replace_leading_dots_suffix (replace_dotdot (replace_invalid fileName)))
    as [pre Hpre].
  set (s := replace_leading_dots _) in *.
  assert (valid s) as Hs.
  { unfold valid in *. rewrite Hpre in Hv. now apply Forall_app in Hv as [_ Hv]. }
  rewrite (trim_valid s Hs). split; [exact Hs|]. split.
  - rewrite Hpre in Hd. now apply no_dotdot_app_inv in Hd as [_ Hd].
  - apply replace_leading_dots_head.
Qed.

Lemma sanitized_of_id (s : jsstring) : clean s -> sanitized_of s = s.
Proof.
  intros (Hv & Hd & Hh). unfold sanitized_of.
  rewrite (replace_invalid_id s Hv), (replace_dotdot_id s Hd),
    (replace_leading_dots_id s Hh). now apply trim_valid.
Qed.


(** ** [path.extname] and [path.basename] on a name without separators *)

Lemma valid_slash_free (s : jsstring) : valid s -> slash_free s.
Proof.
  unfold valid, slash_free. intros H. eapply Forall_impl; [exact H|].
  intros c Hc. simpl in Hc.
  now apply valid_char_not_slash in Hc as [Hc _].
Qed.

Lemma charCodeAt_middle (pre suf : jsstring) (c : N) :
  charCodeAt (pre ++ c :: suf) (length pre) = c.
Proof. unfold charCodeAt. apply nth_middle. Qed.

Lemma slice_nat (s : jsstring) (a b : nat) :
  (a <= b <= length s)%nat ->
  slice s (Z.of_nat a) (Z.of_nat b) = take (b - a) (drop a s).
Proof.
  intros H. unfold slice.
  destruct (Z.ltb_spec (Z.of_nat a) 0); [lia|].
  destruct (Z.ltb_spec (Z.of_nat b) 0); [lia|].
  rewrite !Z.min_l by lia. rewrite Nat2Z.id. f_equal. lia.
Qed.

Lemma slice_prefix (b e : jsstring) :
  slice (b ++ e) 0 (Z.of_nat (length b)) = b.
Proof.
  change 0%Z with (Z.of_nat 0). rewrite slice_nat by (rewrite length_app; lia).
  rewrite drop_0, Nat.sub_0_r. now rewrite take_app_length.
Qed.

Lemma slice_suffix (b e : jsstring) :
  slice (b ++ e) (Z.of_nat (length b)) (Z.of_nat (length (b ++ e))) = e.
Proof.
  rewrite slice_nat by (rewrite length_app; lia).
  rewrite drop_app_length, length_app.
  replace (length b + length e - length b)%nat with (length e) by lia.
  apply firstn_all.
Qed.

Lemma extname_steps_app (i : nat) (a b : jsstring) (st : path.extname_state) :
  extname_steps i (a ++ b) st
  = extname_steps i a (extname_steps (i + length a) b st).
Proof.
  revert i; induction a as [|c a IH]; intros i; simpl.
  - now rewrite Nat.add_0_r.
  - rewrite IH. do 3 f_equal. lia.
Qed.

Lemma extname_loop_steps (pre suf : jsstring) (st : path.extname_state) :
  slash_free pre ->
  path.extname_loop (pre ++ suf) (length pre) st = extname_steps 0 pre st.
Proof.
  revert suf st. induction pre as [|c pre IH] using rev_ind; intros suf st H.
  - reflexivity.
  - apply Forall_app in H as [Hpre Hc]. inversion Hc as [|? ? Hc' _]; subst.
    rewrite length_app, Nat.add_1_r, <- app_assoc. simpl app. simpl path.extname_loop.
    rewrite charCodeAt_middle.
    apply N.eqb_neq in Hc'. rewrite Hc'.
    rewrite IH by exact Hpre. rewrite extname_steps_app. reflexivity.
Qed.

Lemma lastIndexOf_cons (c d : N) (s : jsstring) :
  lastIndexOf (c :: s) d
  = match lastIndexOf s d with
    | Some k => Some (S k)
    | None => if c =? d then Some O else None
    end.
Proof. reflexivity. Qed.

Lemma preDotState_of_cons (c : N) (s : jsstring) :
  preDotState_of (c :: s)
  = match lastIndexOf s CHAR_DOT with
    | Some _ => if c =? CHAR_DOT then 1%Z else (-1)%Z
    | None => 0%Z
    end.
Proof.
  unfold preDotState_of. rewrite lastIndexOf_cons.
  destruct (lastIndexOf s CHAR_DOT); [reflexivity|].
  now destruct (c =? CHAR_DOT).
Qed.

Lemma extname_steps_init (s : jsstring) (i : nat) :
  s <> [] ->
  extname_steps i s path.extname_init
  = path.mk_extname_state (Z_of_index (lastIndexOf s CHAR_DOT) i) 0
      (Z.of_nat (i + length s)) false (preDotState_of s).
Proof.
  revert i. induction s as [|c s IH]; intros i Hne; [congruence|].
  destruct s as [|d s].
  - unfold preDotState_of. simpl. unfold path.extname_step. simpl.
    destruct (c =? CHAR_DOT); simpl; repeat f_equal; lia.
  - change (extname_steps i (c :: d :: s) path.extname_init)
      with (path.extname_step (Z.of_nat i) c
              (extname_steps (S i) (d :: s) path.extname_init)).
    rewrite IH by discriminate.
    rewrite (preDotState_of_cons c), (lastIndexOf_cons c).
    set (pd := preDotState_of (d :: s)).
    assert (lastIndexOf (d :: s) CHAR_DOT = None -> pd = 0%Z) as Hpd.
    { intros E. subst pd. rewrite preDotState_of_cons.
      rewrite lastIndexOf_cons in E.
      destruct (lastIndexOf s CHAR_DOT); [discriminate | reflexivity]. }
    unfold path.extname_step. cbn [path.end_ path.startDot path.preDotState
      path.startPart path.matchedSlash].
    destruct (Z.eqb_spec (Z.of_nat (S i + length (d :: s))) (-1)); [lia|].
    cbn [path.end_ path.startDot path.preDotState path.startPart path.matchedSlash].
    destruct (lastIndexOf (d :: s) CHAR_DOT) as [k|] eqn:Ek;
      cbn [Z_of_index]; destruct (c =? CHAR_DOT) eqn:Ec.
    + destruct (Z.eqb_spec (Z.of_nat (S i + k)) (-1)); [lia|].
      destruct (Z.eqb_spec pd 1) as [->|]; cbn; repeat f_equal; simpl length; lia.
    + destruct (Z.eqb_spec (Z.of_nat (S i + k)) (-1)); [lia|].
      cbn. repeat f_equal; simpl length; lia.
    + rewrite Hpd by reflexivity. cbn. repeat f_equal; simpl length; lia.
    + rewrite Hpd by reflexivity. cbn. repeat f_equal; simpl length; lia.
Qed.

Lemma lastIndexOf_lt (s : jsstring) (c : N) (k : nat) :
  lastIndexOf s c = Some k -> (k < length s)%nat.
Proof.
  revert k; induction s as [|d s IH]; intros k; [discriminate|].
  rewrite lastIndexOf_cons. destruct (lastIndexOf s c) as [j|].
  - intros [= <-]. specialize (IH j eq_refl). simpl. lia.
  - destruct (d =? c); [|discriminate]. intros [= <-]. simpl. lia.
Qed.

Lemma lastIndexOf_zero (s : jsstring) (c : N) :
  lastIndexOf s c = Some O -> head s = Some c.
Proof.
  destruct s as [|d s]; [discriminate|]. rewrite lastIndexOf_cons.
  destruct (lastIndexOf s c); [discriminate|].
  destruct (N.eqb_spec d c); [now subst | discriminate].
Qed.

Lemma extname_loop_all (s : jsstring) (st : path.extname_state) :
  slash_free s -> path.extname_loop s (length s) st = extname_steps 0 s st.
Proof.
  intros H. rewrite <- (extname_loop_steps s [] st H). now rewrite app_nil_r.
Qed.

(** On the sanitized name, [path.extname] is the part from the last dot
    on. *)
Lemma extname_clean (s : jsstring) :
  clean s -> path.extname s = snd (Reference.split_ext s).
Proof.
  intros (Hv & Hd & Hh). destruct s as [|c s]; [reflexivity|].
  unfold path.extname, Reference.split_ext.
  rewrite extname_loop_all by now apply valid_slash_free.
  rewrite extname_steps_init by discriminate.
  cbn [path.end_ path.startDot path.preDotState path.startPart path.matchedSlash].
  fold CHAR_DOT.
  destruct (lastIndexOf (c :: s) CHAR_DOT) as [[|k]|] eqn:Ek.
  - apply lastIndexOf_zero in Ek. contradiction.
  - pose proof (lastIndexOf_lt _ _ _ Ek) as Hlt.
    unfold preDotState_of. rewrite Ek.
    assert ((c =? CHAR_DOT) = false) as Hc.
    { apply N.eqb_neq. intros ->. now apply Hh. }
    rewrite Hc. cbn [Z_of_index snd].
    destruct (Z.eqb_spec (Z.of_nat (0 + S k)) (-1)); [lia|].
    destruct (Z.eqb_spec (Z.of_nat (0 + length (c :: s))) (-1)); [lia|].
    cbn [orb andb Z.eqb]. rewrite slice_nat by lia.
    apply take_ge. rewrite length_drop. lia.
  - reflexivity.
Qed.

Lemma basename_steps_app (suffix : jsstring) (i : nat) (a b : jsstring)
    (st : path.basename_state) :
  basename_steps suffix i (a ++ b) st
  = basename_steps suffix i a (basename_steps suffix (i + length a) b st).
Proof.
  revert i; induction a as [|c a IH]; intros i; simpl.
  - now rewrite Nat.add_0_r.
  - rewrite IH. do 3 f_equal. lia.
Qed.

Lemma basename_loop_steps (suffix pre suf : jsstring) (st : path.basename_state) :
  slash_free pre ->
  path.basename_suffix_loop (pre ++ suf) suffix (length pre) st
  = basename_steps suffix 0 pre st.
Proof.
  revert suf st. induction pre as [|c pre IH] using rev_ind; intros suf st H.
  - reflexivity.
  - apply Forall_app in H as [Hpre Hc]. inversion Hc as [|? ? Hc' _]; subst.
    rewrite length_app, Nat.add_1_r, <- app_assoc. simpl app.
    simpl path.basename_suffix_loop. rewrite charCodeAt_middle.
    apply N.eqb_neq in Hc'. rewrite Hc'.
    rewrite IH by exact Hpre. rewrite basename_steps_app. reflexivity.
Qed.

Lemma basename_loop_all (suffix s : jsstring) (st : path.basename_state) :
  slash_free s ->
  path.basename_suffix_loop s suffix (length s) st = basename_steps suffix 0 s st.
Proof.
  intros H. rewrite <- (basename_loop_steps suffix s [] st H). now rewrite app_nil_r.
Qed.

Lemma basename_step_first (suffix : jsstring) (i : Z) (c : N)
    (st : path.basename_state) :
  path.firstNonSlashEnd st = (-1)%Z ->
  path.basename_step suffix i c st
  = path.basename_step suffix i c
      (path.mk_basename_state (path.bstart st) (path.bend st) false
         (path.extIdx st) (i + 1)).
Proof.
  intros H. unfold path.basename_step. rewrite H. cbn [Z.eqb].
  cbn [path.bstart path.bend path.bmatchedSlash path.extIdx path.firstNonSlashEnd].
  now destruct (i + 1 =? -1)%Z.
Qed.

(** While the suffix matches: [e2] has been compared, [e1] is still to
    come. *)
Lemma basename_steps_match (e2 e1 : jsstring) (i : nat) :
  e2 <> [] ->
  basename_steps (e1 ++ e2) i e2
    (path.mk_basename_state 0 (-1) true (Z.of_nat (length (e1 ++ e2)) - 1) (-1))
  = path.mk_basename_state 0
      (match e1 with [] => Z.of_nat i | _ => -1 end) false
      (Z.of_nat (length e1) - 1) (Z.of_nat (i + length e2)).
Proof.
  revert e1 i. induction e2 as [|c e2 IH]; intros e1 i Hne; [congruence|].
  cbn [basename_steps].
  assert (path.basename_step (e1 ++ c :: e2) (Z.of_nat i) c
            (path.mk_basename_state 0 (-1) false (Z.of_nat (length e1))
               (Z.of_nat (i + length (c :: e2))))
          = path.mk_basename_state 0
              (match e1 with [] => Z.of_nat i | _ => -1 end) false
              (Z.of_nat (length e1) - 1) (Z.of_nat (i + length (c :: e2)))) as Hstep.
  { unfold path.basename_step.
    cbn [path.bstart path.bend path.bmatchedSlash path.extIdx path.firstNonSlashEnd].
    destruct (Z.eqb_spec (Z.of_nat (i + length (c :: e2))) (-1)); [lia|].
    cbn [path.bstart path.bend path.bmatchedSlash path.extIdx path.firstNonSlashEnd].
    destruct (Z.leb_spec 0 (Z.of_nat (length e1))); [|lia].
    rewrite Nat2Z.id, charCodeAt_middle, N.eqb_refl.
    destruct e1 as [|x e1]; [reflexivity|].
    destruct (Z.eqb_spec (Z.of_nat (length (x :: e1)) - 1) (-1)); [simpl length in *; lia|].
    reflexivity. }
  destruct e2 as [|d e2].
  - cbn [basename_steps]. rewrite basename_step_first by reflexivity.
    cbn [path.bstart path.bend path.bmatchedSlash path.extIdx path.firstNonSlashEnd].
    rewrite <- Hstep. f_equal. rewrite length_app. simpl length. f_equal; lia.
  - specialize (IH (e1 ++ [c]) (S i)). rewrite <- app_assoc in IH. simpl app in IH.
    rewrite IH by discriminate. rewrite <- Hstep.
    f_equal. destruct e1; simpl; rewrite ?length_app; simpl; f_equal; lia.
Qed.

Lemma basename_steps_done (suffix s : jsstring) (i : nat) (st : path.basename_state) :
  path.extIdx st = (-1)%Z -> path.firstNonSlashEnd st <> (-1)%Z ->
  basename_steps suffix i s st = st.
Proof.
  intros H1 H2. revert i; induction s as [|c s IH]; intros i; [reflexivity|].
  simpl. rewrite IH. unfold path.basename_step.
  destruct (Z.eqb_spec (path.firstNonSlashEnd st) (-1)); [contradiction|].
  now rewrite H1.
Qed.

Lemma basename_split (b e : jsstring) :
  b <> [] -> e <> [] -> slash_free (b ++ e) -> path.basename (b ++ e) e = b.
Proof.
  intros Hb He Hs. unfold path.basename.
  assert (length b <> 0%nat) as Hlb by (destruct b; simpl; congruence).
  assert (length e <> 0%nat) as Hle by (destruct e; simpl; congruence).
  destruct (Nat.ltb_spec 0 (length e)); [|lia].
  destruct (Nat.leb_spec (length e) (length (b ++ e)));
    [|rewrite length_app in *; lia].
  cbn [andb]. rewrite bool_decide_eq_false_2.
  2:{ intros E. apply (f_equal length) in E. rewrite length_app in E. lia. }
  rewrite basename_loop_all by exact Hs.
  rewrite basename_steps_app, Nat.add_0_l.
  pose proof (basename_steps_match e [] (length b) He) as Hm.
  cbn [app length] in Hm. rewrite Hm. clear Hm.
  rewrite basename_steps_done by (cbn; lia).
  cbn [path.bstart path.bend path.bmatchedSlash path.extIdx path.firstNonSlashEnd].
  destruct (Z.eqb_spec 0 (Z.of_nat (length b))); [lia|].
  destruct (Z.eqb_spec (Z.of_nat (length b)) (-1)); [lia|].
  apply slice_prefix.
Qed.

Lemma basename_plain_loop_done (pre suf : jsstring) (start e : Z) :
  slash_free pre -> e <> (-1)%Z ->
  path.basename_plain_loop (pre ++ suf) (length pre) (start, e, false)
  = (start, e, false).
Proof.
  revert suf. induction pre as [|c pre IH] using rev_ind; intros suf H He.
  - reflexivity.
  - apply Forall_app in H as [Hpre Hc]. inversion Hc as [|? ? Hc' _]; subst.
    rewrite length_app, Nat.add_1_r, <- app_assoc. simpl app.
    simpl path.basename_plain_loop. rewrite charCodeAt_middle.
    apply N.eqb_neq in Hc'. rewrite Hc'.
    destruct (Z.eqb_spec e (-1)); [contradiction|]. now apply IH.
Qed.

Lemma basename_no_suffix (s : jsstring) :
  slash_free s -> path.basename s [] = s.
Proof.
  intros H. unfold path.basename. cbn [length Nat.ltb Nat.leb andb].
  destruct s as [|c s] using rev_ind; [reflexivity|]. clear IHs.
  apply Forall_app in H as [Hs Hc]. inversion Hc as [|? ? Hc' _]; subst.
  rewrite length_app, Nat.add_1_r. simpl path.basename_plain_loop.
  rewrite charCodeAt_middle. apply N.eqb_neq in Hc'. rewrite Hc'.
  cbn [Z.eqb]. rewrite basename_plain_loop_done by (auto; lia).
  destruct (Z.eqb_spec (Z.of_nat (length s) + 1) (-1)); [lia|].
  replace (Z.of_nat (length s) + 1)%Z with (Z.of_nat (length (s ++ [c])))
    by (rewrite length_app; simpl; lia).
  rewrite <- (app_nil_r (s ++ [c])) at 1. apply slice_prefix.
Qed.

Lemma basename_clean (s : jsstring) :
  clean s -> path.basename s (path.extname s) = fst (Reference.split_ext s).
Proof.
  intros Hc. rewrite (extname_clean s Hc).
  destruct Hc as (Hv & Hd & Hh). apply valid_slash_free in Hv.
  unfold Reference.split_ext. fold CHAR_DOT.
  destruct (lastIndexOf s CHAR_DOT) as [k|] eqn:Ek; cbn [fst snd].
  - pose proof (lastIndexOf_lt _ _ _ Ek) as Hlt.
    rewrite <- (take_drop k s) at 1. apply basename_split.
    + destruct k; [apply lastIndexOf_zero in Ek; contradiction|].
      destruct s; [simpl in Hlt; lia | discriminate].
    + intros E. apply (f_equal length) in E. rewrite length_drop in E. simpl in E. lia.
    + now rewrite take_drop.
  - now apply basename_no_suffix.
Qed.

(** The sanitized name is cut in two and the hash is put in between. *)
Lemma sanitizeFileName_split (fileName : jsstring) (rnd : list byte) :
  sanitizeFileName fileName rnd
  = fst (Reference.split_ext (sanitized_of fileName)) ++ js "_" ++ toString_hex rnd
    ++ snd (Reference.split_ext (sanitized_of fileName)).
Proof.
  unfold sanitizeFileName. pose proof (sanitized_of_clean fileName) as Hc.
  now rewrite (basename_clean _ Hc), (extname_clean _ Hc).
Qed.

Lemma split_ext_app (s : jsstring) :
  fst (Reference.split_ext s) ++ snd (Reference.split_ext s) = s.
Proof.
  unfold Reference.split_ext. destruct (lastIndexOf s 46); cbn [fst snd].
  - apply take_drop.
  - apply app_nil_r.
Qed.


(** ** The hash *)

Lemma hex_digit_is_hex (n : N) : n < 16 -> Reference.is_hex_digit (hex_digit n) = true.
Proof.
  intros H. unfold hex_digit, Reference.is_hex_digit.
  destruct (N.ltb_spec n 10); apply orb_true_iff; [left | right];
    apply andb_true_iff; split; apply N.leb_le; lia.
Qed.

Lemma hex_digit_valid (c : N) : Reference.is_hex_digit c = true -> is_valid_char c = true.
Proof.
  unfold Reference.is_hex_digit, is_valid_char. intros H.
  apply orb_true_iff in H as [H | H]; apply andb_true_iff in H as [H1 H2];
    apply N.leb_le in H1, H2.
  - do 3 (apply orb_true_iff; left). apply orb_true_iff; right.
    apply andb_true_iff; split; apply N.leb_le; lia.
  - do 5 (apply orb_true_iff; left).
    apply andb_true_iff; split; apply N.leb_le; lia.
Qed.

Lemma hex_digit_not_dot (c : N) : Reference.is_hex_digit c = true -> c <> CHAR_DOT.
Proof.
  unfold Reference.is_hex_digit, CHAR_DOT. intros H ->. discriminate.
Qed.

Lemma toString_hex_digits (buf : list byte) :
  Forall (fun c => Reference.is_hex_digit c = true) (toString_hex buf).
Proof.
  unfold toString_hex. induction buf as [|b buf IH]; [constructor|].
  pose proof (Byte.to_N_bounded b) as Hb. simpl.
  constructor; [|constructor; [|exact IH]]; apply hex_digit_is_hex.
  - apply N.Div0.div_lt_upper_bound. lia.
  - apply N.mod_lt. lia.
Qed.

Lemma toString_hex_length (buf : list byte) :
  length (toString_hex buf) = (2 * length buf)%nat.
Proof.
  unfold toString_hex. induction buf as [|b buf IH]; [reflexivity|].
  simpl. rewrite IH. lia.
Qed.

(** ** The result of [sanitizeFileName] *)

Lemma no_dot_no_dotdot (s : jsstring) :
  Forall (fun c => c <> CHAR_DOT) s -> no_dotdot s = true.
Proof.
  induction 1 as [|c s Hc _ IH]; [reflexivity|].
  destruct s as [|d s]; [reflexivity|].
  rewrite no_dotdot_cons, IH. apply N.eqb_neq in Hc. now rewrite Hc.
Qed.

Lemma last_Forall (P : N -> Prop) (s : jsstring) (c : N) :
  Forall P s -> last s = Some c -> P c.
Proof.
  intros H Hl. apply last_Some in Hl as [s' ->].
  apply Forall_app in H as [_ H]. now inversion H.
Qed.

Lemma split_ext_clean (s : jsstring) :
  clean s ->
  clean (fst (Reference.split_ext s))
  /\ valid (snd (Reference.split_ext s))
  /\ no_dotdot (snd (Reference.split_ext s)) = true.
Proof.
  intros (Hv & Hd & Hh). pose proof (split_ext_app s) as Hs.
  destruct (Reference.split_ext s) as [b e]. cbn [fst snd] in *. subst s.
  apply Forall_app in Hv as [Hvb Hve].
  apply no_dotdot_app_inv in Hd as [Hdb Hde].
  repeat split; try assumption.
  destruct b; [discriminate | exact Hh].
Qed.

Lemma sanitizeFileName_clean (fileName : jsstring) (rnd : list byte) :
  clean (sanitizeFileName fileName rnd).
Proof.
  rewrite sanitizeFileName_split.
  destruct (split_ext_clean _ (sanitized_of_clean fileName))
    as ((Hvb & Hdb & Hhb) & Hve & Hde).
  pose proof (toString_hex_digits rnd) as Hhex.
  set (b := fst _) in *. set (e := snd _) in *. set (h := toString_hex rnd) in *.
  assert (valid h) as Hvh.
  { unfold valid. eapply Forall_impl; [exact Hhex|]. apply hex_digit_valid. }
  assert (no_dotdot h = true) as Hdh.
  { apply no_dot_no_dotdot. eapply Forall_impl; [exact Hhex|]. apply hex_digit_not_dot. }
  split; [|split].
  - unfold valid in *. rewrite !Forall_app. repeat split; try assumption.
    now repeat constructor.
  - apply no_dotdot_app; [exact Hdb| |right; discriminate].
    change (js "_" ++ h ++ e) with ([CHAR_UNDERSCORE] ++ (h ++ e)).
    apply no_dotdot_app; [reflexivity| |left; discriminate].
    apply no_dotdot_app; [exact Hdh | exact Hde |].
    left. intros Hl. eapply hex_digit_not_dot; [|reflexivity].
    exact (last_Forall _ _ _ Hhex Hl).
  - destruct b; [discriminate | exact Hhb].
Qed.

Lemma sanitizeFileName_no_traversal_slash (fileName : jsstring) (rnd : list byte) :
  CHAR_FORWARD_SLASH ∉ sanitizeFileName fileName rnd.
Proof.
  destruct (sanitizeFileName_clean fileName rnd) as (Hv & _).
  unfold valid in Hv. rewrite Forall_forall in Hv.
  intros Hin. now destruct (valid_char_not_slash _ (Hv _ Hin)).
Qed.

(** C1.  For every file name and every random buffer, the result of
    [sanitizeFileName] contains no path separator ([/] or [\]) and no
    [..]: the sanitizer never lets a traversal sequence through. *)
Theorem sanitizeFileName_no_traversal (fileName : jsstring) (rnd : list byte) :
  (CHAR_FORWARD_SLASH ∉ sanitizeFileName fileName rnd)
  /\ (CHAR_BACKWARD_SLASH ∉ sanitizeFileName fileName rnd)
  /\ includes (sanitizeFileName fileName rnd) (js "..") = false
  /\ (forall pre post, sanitizeFileName fileName rnd <> pre ++ js ".." ++ post).
Proof.
  destruct (sanitizeFileName_clean fileName rnd) as (Hv & Hd & _).
  unfold valid in Hv. rewrite Forall_forall in Hv.
  assert (includes (sanitizeFileName fileName rnd) (js "..") = false) as Hinc.
  { change (js "..") with [CHAR_DOT; CHAR_DOT]. now rewrite includes_dotdot, Hd. }
  split; [|split; [|split; [exact Hinc|]]].
  - intros Hin. now destruct (valid_char_not_slash _ (Hv _ Hin)).
  - intros Hin. now destruct (valid_char_not_slash _ (Hv _ Hin)).
  - intros pre post E.
    assert (includes (sanitizeFileName fileName rnd) (js "..") = true) as Ht
      by (apply includes_spec; eauto).
    rewrite Hinc in Ht. discriminate.
Qed.

(** ** The sanitizer against the specification's algorithm *)

Lemma in_class_valid (c : N) : Reference.in_class c = is_valid_char c.
Proof.
  unfold Reference.in_class, is_valid_char, CHAR_DOT, CHAR_UNDERSCORE.
  destruct (97 <=? c), (c <=? 122), (65 <=? c), (c <=? 90), (48 <=? c), (c <=? 57);
    reflexivity.
Qed.

Lemma replace_outside_class_eq (s : jsstring) :
  Reference.replace_outside_class s = replace_invalid s.
Proof.
  unfold Reference.replace_outside_class, replace_invalid.
  apply map_ext. intros c. now rewrite in_class_valid.
Qed.

Lemma strip_leading_dots_eq (s : jsstring) :
  Reference.strip_leading_dots s = replace_leading_dots s.
Proof.
  induction s as [|c s IH]; [reflexivity|]. simpl. fold CHAR_DOT.
  destruct (N.eqb_spec c CHAR_DOT).
  - now rewrite bool_decide_eq_true_2.
  - now rewrite bool_decide_eq_false_2.
Qed.

Lemma remove_first_dotdot_cons (c d : N) (s : jsstring) :
  Reference.remove_first_dotdot (c :: d :: s)
  = if (c =? CHAR_DOT) && (d =? CHAR_DOT) then s
    else c :: Reference.remove_first_dotdot (d :: s).
Proof. reflexivity. Qed.

Lemma remove_first_dotdot_other (c : N) (s : jsstring) :
  c <> CHAR_DOT ->
  Reference.remove_first_dotdot (c :: s) = c :: Reference.remove_first_dotdot s.
Proof.
  intros Hc. destruct s as [|d s]; [reflexivity|].
  rewrite remove_first_dotdot_cons. apply N.eqb_neq in Hc. now rewrite Hc.
Qed.

Lemma replace_dotdot_remove_first (s : jsstring) :
  replace_dotdot (Reference.remove_first_dotdot s) = replace_dotdot s.
Proof.
  induction s as [| c | c d s IH1 IH2] using pair_induction; try reflexivity.
  rewrite remove_first_dotdot_cons, replace_dotdot_cons.
  destruct (N.eqb_spec c CHAR_DOT) as [Ec|Ec];
    destruct (N.eqb_spec d CHAR_DOT) as [Ed|Ed]; cbn [andb].
  - reflexivity.
  - rewrite remove_first_dotdot_other in * by exact Ed.
    rewrite replace_dotdot_cons.
    apply N.eqb_neq in Ed. rewrite Ed, andb_false_r. now rewrite IH2.
  - rewrite replace_dotdot_cons_other by exact Ec. now rewrite IH2.
  - rewrite replace_dotdot_cons_other by exact Ec. now rewrite IH2.
Qed.

Lemma remove_first_dotdot_length (s : jsstring) :
  no_dotdot s = false ->
  (length (Reference.remove_first_dotdot s) + 2 = length s)%nat.
Proof.
  induction s as [| c | c d s IH1 IH2] using pair_induction; try discriminate.
  rewrite no_dotdot_cons, remove_first_dotdot_cons.
  destruct ((c =? CHAR_DOT) && (d =? CHAR_DOT)); cbn [negb andb]; intros H.
  - simpl. lia.
  - specialize (IH2 H). simpl in *. lia.
Qed.

Lemma remove_all_dotdot_eq (fuel : nat) (s : jsstring) :
  (length s <= fuel)%nat -> Reference.remove_all_dotdot fuel s = replace_dotdot s.
Proof.
  revert s; induction fuel as [|fuel IH]; intros s Hlen.
  - destruct s; [reflexivity | simpl in Hlen; lia].
  - cbn [Reference.remove_all_dotdot].
    change [46; 46] with [CHAR_DOT; CHAR_DOT]. rewrite includes_dotdot.
    destruct (no_dotdot s) eqn:E; cbn [negb].
    + symmetry. now apply replace_dotdot_id.
    + rewrite IH; [apply replace_dotdot_remove_first|].
      pose proof (remove_first_dotdot_length s E). lia.
Qed.

(** C5.  [sanitizeFileName] computes the algorithm of the specification:
    characters outside [[A-Za-z0-9._-]] become [_], all [..] are removed,
    leading dots are stripped, the name is split at its last dot into base
    and extension, and the result is the base, [_], the 16 hexadecimal
    digits of the 8 random bytes, and the extension (with its dot). *)
Theorem sanitizeFileName_reference (fileName : jsstring) (rnd : list byte) :
  length rnd = 8%nat ->
  sanitizeFileName fileName rnd = Reference.sanitize fileName (toString_hex rnd)
  /\ length (toString_hex rnd) = 16%nat
  /\ Forall (fun c => Reference.is_hex_digit c = true) (toString_hex rnd).
Proof.
  intros Hlen. split; [|split].
  - rewrite sanitizeFileName_split. unfold Reference.sanitize.
    rewrite replace_outside_class_eq, strip_leading_dots_eq.
    rewrite remove_all_dotdot_eq
      by (unfold replace_invalid; now rewrite length_map).
    assert (sanitized_of fileName
            = replace_leading_dots (replace_dotdot (replace_invalid fileName))) as ->.
    { pose proof (sanitized_of_clean fileName) as (Hv & _).
      unfold sanitized_of in *.
      destruct (replace_leading_dots_suffix (replace_dotdot (replace_invalid fileName)))
        as [pre Hpre].
      apply trim_valid.
      pose proof (replace_dotdot_valid _ (replace_invalid_valid fileName)) as Hv'.
      rewrite Hpre in Hv'. unfold valid in *. now apply Forall_app in Hv' as [_ Hv']. }
    now destruct (Reference.split_ext _).
  - rewrite toString_hex_length, Hlen. reflexivity.
  - apply toString_hex_digits.
Qed.

Lemma sanitizeFileName_reference_witness :
  sanitizeFileName (js "../../etc/passwd") [x00; x01; xab; xff; x10; x9a; x7f; x80]
  = Reference.sanitize (js "../../etc/passwd") (js "0001abff109a7f80").
Proof.
  exact (proj1 (sanitizeFileName_reference (js "../../etc/passwd")
                  [x00; x01; xab; xff; x10; x9a; x7f; x80] eq_refl)).
Defined.

(** ** Sanitizing twice *)

Lemma sanitizeFileName_length (fileName : jsstring) (rnd : list byte) :
  length (sanitizeFileName fileName rnd)
  = (length (sanitized_of fileName) + 1 + 2 * length rnd)%nat.
Proof.
  rewrite sanitizeFileName_split.
  rewrite <- (split_ext_app (sanitized_of fileName)) at 3.
  rewrite !length_app, toString_hex_length. simpl. lia.
Qed.

(** C9.  Sanitizing is not idempotent: whatever the two random buffers are,
    sanitizing an already sanitized name gives a different name (it is 17
    code units longer with 8 random bytes), so the name [GET
    /uploads/:filename] looks up for a stored name is not that stored
    name. *)
Theorem sanitizeFileName_not_idempotent (fileName : jsstring) (rnd1 rnd2 : list byte) :
  let stored_name := sanitizeFileName fileName rnd1 in
  sanitizeFileName stored_name rnd2 <> stored_name
  /\ length (sanitizeFileName stored_name rnd2)
     = (length stored_name + 1 + 2 * length rnd2)%nat
  /\ (forall cwd __dirname d,
        get_upload cwd __dirname rnd2 stored_name d
        = serve_upload cwd __dirname (sanitizeFileName stored_name rnd2) d).
Proof.
  intros stored_name. subst stored_name.
  cut (sanitizeFileName (sanitizeFileName fileName rnd1) rnd2
       <> sanitizeFileName fileName rnd1
       /\ length (sanitizeFileName (sanitizeFileName fileName rnd1) rnd2)
          = (length (sanitizeFileName fileName rnd1) + 1 + 2 * length rnd2)%nat).
  { intros [H1 H2]. split; [exact H1|]. split; [exact H2 | reflexivity]. }
  assert (length (sanitizeFileName (sanitizeFileName fileName rnd1) rnd2)
          = (length (sanitizeFileName fileName rnd1) + 1 + 2 * length rnd2)%nat) as H.
  { rewrite (sanitizeFileName_length (sanitizeFileName fileName rnd1)).
    now rewrite (sanitized_of_id _ (sanitizeFileName_clean fileName rnd1)). }
  split; [|exact H].
  intros E. rewrite E in H. lia.
Qed.


(** ** Paths: segments, [path.join] and [path.resolve] *)

Lemma split_sep_cons (c : N) (s : jsstring) :
  path.split_sep (c :: s)
  = if c =? CHAR_FORWARD_SLASH then [] :: path.split_sep s
    else match path.split_sep s with
         | seg :: segs => (c :: seg) :: segs
         | [] => [[c]]
         end.
Proof. reflexivity. Qed.

Lemma split_sep_nonempty (s : jsstring) :
  exists seg segs, path.split_sep s = seg :: segs.
Proof.
  induction s as [|c s (seg & segs & IH)]; [now exists [], []|].
  rewrite split_sep_cons, IH. destruct (c =? CHAR_FORWARD_SLASH); eauto.
Qed.

Lemma split_sep_app (a b : jsstring) :
  path.split_sep (a ++ CHAR_FORWARD_SLASH :: b) = path.split_sep a ++ path.split_sep b.
Proof.
  induction a as [|c a IH].
  - simpl app. rewrite split_sep_cons, N.eqb_refl. reflexivity.
  - simpl app. rewrite !split_sep_cons, IH.
    destruct (c =? CHAR_FORWARD_SLASH); [reflexivity|].
    now destruct (split_sep_nonempty a) as (seg & segs & ->).
Qed.

Lemma split_sep_slash_free (s : jsstring) :
  slash_free s -> path.split_sep s = [s].
Proof.
  induction 1 as [|c s Hc _ IH]; [reflexivity|].
  rewrite split_sep_cons, IH. apply N.eqb_neq in Hc. now rewrite Hc.
Qed.

Lemma split_sep_segments (s : jsstring) : Forall slash_free (path.split_sep s).
Proof.
  induction s as [|c s IH]; [repeat constructor|].
  rewrite split_sep_cons. destruct (N.eqb_spec c CHAR_FORWARD_SLASH) as [|Hc].
  - constructor; [constructor | exact IH].
  - destruct (path.split_sep s) as [|seg segs]; [repeat constructor; exact Hc|].
    inversion IH; subst. constructor; [|assumption]. now constructor.
Qed.

Lemma join_sep_cons (s t : jsstring) (rest : list jsstring) :
  path.join_sep (s :: t :: rest)
  = s ++ CHAR_FORWARD_SLASH :: path.join_sep (t :: rest).
Proof. reflexivity. Qed.

Lemma join_sep_snoc (segs : list jsstring) (x : jsstring) :
  segs <> [] ->
  path.join_sep (segs ++ [x]) = path.join_sep segs ++ CHAR_FORWARD_SLASH :: x.
Proof.
  induction segs as [|s segs IH]; intros Hne; [congruence|].
  destruct segs as [|t segs].
  - simpl. now rewrite !app_nil_r.
  - change ((s :: t :: segs) ++ [x]) with (s :: t :: (segs ++ [x])).
    rewrite !join_sep_cons. change (t :: segs ++ [x]) with ((t :: segs) ++ [x]).
    rewrite IH by discriminate. now rewrite <- app_assoc.
Qed.

Lemma split_join_sep (segs : list jsstring) :
  segs <> [] -> Forall slash_free segs ->
  path.split_sep (path.join_sep segs) = segs.
Proof.
  induction segs as [|s segs IH]; intros Hne H; [congruence|].
  inversion H as [|? ? Hs Hsegs]; subst.
  destruct segs as [|t segs].
  - simpl. rewrite app_nil_r. now apply split_sep_slash_free.
  - rewrite join_sep_cons, split_sep_app, IH by (discriminate || assumption).
    now rewrite split_sep_slash_free.
Qed.

Lemma normalize_segment_proper (allow : bool) (res : list jsstring) (seg : jsstring) :
  proper seg -> path.normalize_segment allow res seg = seg :: res.
Proof.
  intros (H1 & H2 & H3 & _). unfold path.normalize_segment.
  now rewrite !bool_decide_eq_false_2.
Qed.

Lemma normalize_segments_proper (allow : bool) (segs res : list jsstring) :
  Forall proper segs ->
  fold_left (path.normalize_segment allow) segs res = rev segs ++ res.
Proof.
  intros H. revert res. induction H as [|seg segs Hseg _ IH]; intros res; [reflexivity|].
  simpl. rewrite normalize_segment_proper by exact Hseg.
  rewrite IH, <- app_assoc. reflexivity.
Qed.

Lemma normalize_segment_keeps_proper (res : list jsstring) (seg : jsstring) :
  slash_free seg -> Forall proper res ->
  Forall proper (path.normalize_segment false res seg).
Proof.
  intros Hs Hres. unfold path.normalize_segment.
  destruct (bool_decide_reflect (seg = [])); [exact Hres|].
  destruct (bool_decide_reflect (seg = [CHAR_DOT])); [exact Hres|]. cbn [orb].
  destruct (bool_decide_reflect (seg = [CHAR_DOT; CHAR_DOT])).
  - destruct res as [|top res']; [constructor|].
    inversion Hres; subst. now destruct (bool_decide _).
  - constructor; [|exact Hres]. repeat split; assumption.
Qed.

Lemma normalize_segments_keep_proper (segs res : list jsstring) :
  Forall slash_free segs -> Forall proper res ->
  Forall proper (fold_left (path.normalize_segment false) segs res).
Proof.
  intros H. revert res. induction H as [|seg segs Hseg _ IH]; intros res Hres;
    [exact Hres|].
  simpl. apply IH. now apply normalize_segment_keeps_proper.
Qed.

Lemma proper_slash_free (segs : list jsstring) :
  Forall proper segs -> Forall slash_free segs.
Proof. intros H. eapply Forall_impl; [exact H|]. now intros seg (_ & _ & _ & ?). Qed.

Lemma split_sep_rooted (segs : list jsstring) :
  Forall proper segs ->
  fold_left (path.normalize_segment false) (path.split_sep (path.join_sep segs)) []
  = rev segs.
Proof.
  intros H. destruct segs as [|s segs]; [reflexivity|].
  rewrite split_join_sep by (discriminate || now apply proper_slash_free).
  rewrite normalize_segments_proper by exact H. apply app_nil_r.
Qed.

Lemma last_slash_free (pre s : jsstring) :
  s <> [] -> slash_free s ->
  charCodeAt (pre ++ s) (length (pre ++ s) - 1) <> CHAR_FORWARD_SLASH.
Proof.
  intros Hne Hs. destruct s as [|x s] using rev_ind; [congruence|]. clear IHs.
  apply Forall_app in Hs as [_ Hx]. inversion Hx; subst.
  rewrite app_assoc, length_app. simpl length.
  replace (length (pre ++ s) + 1 - 1)%nat with (length (pre ++ s)) by lia.
  now rewrite charCodeAt_middle.
Qed.

Lemma join_sep_length_snoc (segs : list jsstring) (x : jsstring) :
  (length x <= length (path.join_sep (segs ++ [x])))%nat.
Proof.
  destruct segs as [|s segs].
  - simpl. rewrite app_nil_r. lia.
  - rewrite join_sep_snoc by discriminate. rewrite length_app. simpl. lia.
Qed.

Lemma split_sep_slash (s : jsstring) :
  path.split_sep (CHAR_FORWARD_SLASH :: s) = [] :: path.split_sep s.
Proof. now rewrite split_sep_cons, N.eqb_refl. Qed.

Lemma normalize_rooted_tail (segs : list jsstring) (tail : jsstring) :
  Forall proper segs ->
  fold_left (path.normalize_segment false)
    (path.split_sep (rooted segs ++ CHAR_FORWARD_SLASH :: tail)) []
  = fold_left (path.normalize_segment false) (path.split_sep tail) (rev segs).
Proof.
  intros H. unfold rooted.
  change ((CHAR_FORWARD_SLASH :: path.join_sep segs) ++ CHAR_FORWARD_SLASH :: tail)
    with (CHAR_FORWARD_SLASH :: (path.join_sep segs ++ CHAR_FORWARD_SLASH :: tail)).
  rewrite split_sep_slash, split_sep_app. cbn [fold_left].
  change (path.normalize_segment false [] []) with (@nil jsstring).
  now rewrite fold_left_app, split_sep_rooted.
Qed.

Lemma join_two (a b : jsstring) :
  a <> [] -> b <> [] ->
  path.join [a; b] = path.normalize (a ++ CHAR_FORWARD_SLASH :: b).
Proof.
  intros Ha Hb. unfold path.join.
  rewrite !filter_cons_True, filter_nil
    by (destruct a, b; simpl; (congruence || lia)).
  simpl. now rewrite app_nil_r.
Qed.

(** [path.join(dir, seg)] for a normal absolute [dir] and a proper
    segment. *)
Lemma join_rooted (segs : list jsstring) (seg : jsstring) :
  Forall proper segs -> proper seg ->
  path.join [rooted segs; seg] = rooted (segs ++ [seg]).
Proof.
  intros Hsegs Hseg. pose proof Hseg as (Hne & _ & _ & Hsf).
  rewrite join_two by (discriminate || assumption). unfold path.normalize.
  set (p := rooted segs ++ CHAR_FORWARD_SLASH :: seg).
  assert (path.normalizeString p false = path.join_sep (segs ++ [seg])) as Hn.
  { unfold path.normalizeString, p.
    rewrite normalize_rooted_tail by exact Hsegs.
    rewrite split_sep_slash_free by exact Hsf. cbn [fold_left].
    rewrite normalize_segment_proper by exact Hseg.
    cbn [rev]. now rewrite rev_involutive. }
  assert (length p <> 0)%nat as Hp by (unfold p, rooted; simpl; lia).
  apply Nat.eqb_neq in Hp. rewrite Hp.
  change (path.isAbsolute p) with true. cbn [negb]. rewrite Hn.
  assert (length (path.join_sep (segs ++ [seg])) <> 0)%nat as Hl.
  { pose proof (join_sep_length_snoc segs seg). destruct seg; [congruence|simpl in *; lia]. }
  apply Nat.eqb_neq in Hl. rewrite Hl.
  assert ((charCodeAt p (length p - 1) =? CHAR_FORWARD_SLASH) = false) as Ht.
  { apply N.eqb_neq. unfold p.
    change (rooted segs ++ CHAR_FORWARD_SLASH :: seg)
      with (rooted segs ++ [CHAR_FORWARD_SLASH] ++ seg).
    rewrite app_assoc. apply last_slash_free; assumption. }
  rewrite Ht. reflexivity.
Qed.

(** [path.resolve] leaves a normal absolute path as it is. *)
Lemma resolve_rooted (cwd : jsstring) (segs : list jsstring) :
  Forall proper segs -> path.resolve cwd [rooted segs] = rooted segs.
Proof.
  intros Hsegs. unfold path.resolve. cbn [rev app path.resolve_loop].
  change (length (rooted segs) =? 0)%nat with false. cbv iota.
  change (charCodeAt (rooted segs) 0) with CHAR_FORWARD_SLASH.
  rewrite N.eqb_refl. cbn [negb].
  unfold path.normalizeString.
  rewrite normalize_rooted_tail by exact Hsegs. cbn [path.split_sep fold_left].
  change (path.normalize_segment false (rev segs) []) with (rev segs).
  now rewrite rev_involutive.
Qed.

(** The upload directory is a normal absolute path that ends in
    [uploads]. *)
Lemma uploadDir_rooted (__dirname : jsstring) :
  path.isAbsolute __dirname = true ->
  exists segs, Forall proper segs /\ uploadDir __dirname = rooted (segs ++ [js "uploads"]).
Proof.
  intros Habs. destruct __dirname as [|c0 __dirname]; [discriminate|].
  simpl in Habs. apply N.eqb_eq in Habs. subst c0.
  set (D := CHAR_FORWARD_SLASH :: __dirname).
  exists (rev (fold_left (path.normalize_segment false) (path.split_sep D) [])).
  assert (Forall proper (fold_left (path.normalize_segment false) (path.split_sep D) []))
    as Hst by (apply normalize_segments_keep_proper; [apply split_sep_segments | constructor]).
  split; [now apply Forall_rev|].
  assert (proper (js "uploads")) as Hup.
  { repeat split; try discriminate. unfold slash_free. repeat constructor; discriminate. }
  unfold uploadDir. rewrite join_two by discriminate. unfold path.normalize.
  set (p := D ++ CHAR_FORWARD_SLASH :: js "uploads").
  set (segs := rev (fold_left (path.normalize_segment false) (path.split_sep D) [])).
  assert (path.normalizeString p false = path.join_sep (segs ++ [js "uploads"])) as Hn.
  { unfold path.normalizeString, p.
    rewrite split_sep_app, fold_left_app.
    rewrite (split_sep_slash_free (js "uploads")) by apply Hup. cbn [fold_left].
    rewrite normalize_segment_proper by exact Hup. reflexivity. }
  assert (length p <> 0)%nat as Hp by (unfold p, D; simpl; lia).
  apply Nat.eqb_neq in Hp. rewrite Hp.
  change (path.isAbsolute p) with true. cbn [negb]. rewrite Hn.
  assert (length (path.join_sep (segs ++ [js "uploads"])) <> 0)%nat as Hl.
  { pose proof (join_sep_length_snoc segs (js "uploads")). simpl in *. lia. }
  apply Nat.eqb_neq in Hl. rewrite Hl.
  assert ((charCodeAt p (length p - 1) =? CHAR_FORWARD_SLASH) = false) as Ht.
  { apply N.eqb_neq. unfold p.
    change (D ++ CHAR_FORWARD_SLASH :: js "uploads")
      with (D ++ [CHAR_FORWARD_SLASH] ++ js "uploads").
    rewrite app_assoc. apply last_slash_free; [discriminate | apply Hup]. }
  rewrite Ht. reflexivity.
Qed.

Lemma sanitizeFileName_proper (fileName : jsstring) (rnd : list byte) :
  proper (sanitizeFileName fileName rnd).
Proof.
  destruct (sanitizeFileName_clean fileName rnd) as (Hv & Hd & Hh).
  pose proof (sanitizeFileName_length fileName rnd) as Hl.
  repeat split.
  - intros E. rewrite E in Hl. simpl in Hl. lia.
  - intros E. rewrite E in Hh. now apply Hh.
  - intros E. rewrite E in Hh. now apply Hh.
  - now apply valid_slash_free.
Qed.


(** ** The rate limiter *)

Lemma checkRateLimit_result (now : Z) (ip : jsstring) (m : gmap jsstring (list Z)) :
  checkRateLimit now ip m
  = if decide (MAX_UPLOADS_PER_MINUTE <= length (in_window now (stored ip m)))%nat
    then (false, m)
    else (true, <[ip := in_window now (stored ip m) ++ [now]]> m).
Proof. reflexivity. Qed.

Lemma stored_insert (ip ip' : jsstring) (l : list Z) (m : gmap jsstring (list Z)) :
  stored ip (<[ip' := l]> m) = if decide (ip' = ip) then l else stored ip m.
Proof.
  unfold stored. rewrite lookup_insert. now destruct (decide (ip' = ip)).
Qed.

Lemma run_checks_app (calls1 calls2 : list (Z * jsstring)) (m : gmap jsstring (list Z)) :
  run_checks (calls1 ++ calls2) m
  = let '(log1, m1) := run_checks calls1 m in
    let '(log2, m2) := run_checks calls2 m1 in
    (log1 ++ log2, m2).
Proof.
  revert m; induction calls1 as [|[now ip] calls1 IH]; intros m; simpl.
  - now destruct (run_checks calls2 m).
  - destruct (checkRateLimit now ip m) as [ok m']. rewrite IH.
    destruct (run_checks calls1 m') as [log1 m1].
    now destruct (run_checks calls2 m1).
Qed.

(** *** The stored lists never hold more than the threshold *)

Lemma bounded_empty : bounded ∅.
Proof. intros ip. unfold stored. rewrite lookup_empty. simpl. lia. Qed.

Lemma checkRateLimit_bounded (now : Z) (ip : jsstring) (m : gmap jsstring (list Z)) :
  bounded m -> bounded (checkRateLimit now ip m).2.
Proof.
  intros Hm. rewrite checkRateLimit_result.
  destruct (decide _) as [|Hlt]; [exact Hm|]. cbn [snd]. intros ip'.
  rewrite stored_insert. destruct (decide (ip = ip')); [|apply Hm].
  rewrite length_app. simpl. lia.
Qed.

Lemma run_checks_bounded (calls : list (Z * jsstring)) (m : gmap jsstring (list Z)) :
  bounded m -> bounded (run_checks calls m).2.
Proof.
  revert m; induction calls as [|[now ip] calls IH]; intros m Hm; [exact Hm|].
  simpl. pose proof (checkRateLimit_bounded now ip m Hm) as H.
  destruct (checkRateLimit now ip m) as [ok m']. specialize (IH m' H).
  now destruct (run_checks calls m').
Qed.

Lemma filter_length_all {A} (P : A -> Prop) `{forall x, Decision (P x)} (l : list A) :
  (length l <= length (filter P l))%nat -> Forall P l.
Proof.
  induction l as [|x l IH]; [constructor|].
  rewrite filter_cons. pose proof (length_filter P l).
  destruct (decide (P x)); simpl; intros Hlen; [|lia].
  constructor; [assumption|]. apply IH. lia.
Qed.

(** C6.  After every call of [checkRateLimit], whether it returns [true]
    or [false], the list stored for the client holds no timestamp older
    than the window: every stored [t] has [now - t < RATE_LIMIT_WINDOW].
    The calls before are any sequence of calls since the server started. *)
Theorem checkRateLimit_pruned (calls : list (Z * jsstring)) (now : Z) (ip : jsstring) :
  let m := (run_checks calls ∅).2 in
  let m' := (checkRateLimit now ip m).2 in
  Forall (fun t => (now - t < RATE_LIMIT_WINDOW)%Z) (stored ip m').
Proof.
  intros m m'. subst m'.
  pose proof (run_checks_bounded calls ∅ bounded_empty ip) as Hb. fold m in Hb.
  rewrite checkRateLimit_result. destruct (decide _) as [Hge|Hlt]; cbn [snd].
  - unfold in_window in Hge.
    apply (filter_length_all (fun t => (now - t < RATE_LIMIT_WINDOW)%Z) (stored ip m)).
    lia.
  - rewrite stored_insert, decide_True by reflexivity.
    apply Forall_app. split.
    + unfold in_window. apply Forall_forall. intros t Ht.
      now apply list_elem_of_filter in Ht as [Ht _].
    + repeat constructor. unfold RATE_LIMIT_WINDOW. lia.
Qed.

(** *** What is stored is what was accepted *)

Lemma in_window_idem (now now' : Z) (ts : list Z) :
  (now' <= now)%Z -> in_window now (in_window now' ts) = in_window now ts.
Proof.
  intros Hle. unfold in_window. induction ts as [|t ts IH]; [reflexivity|].
  rewrite !filter_cons.
  destruct (decide (now' - t < RATE_LIMIT_WINDOW)%Z) as [H1|H1].
  - rewrite filter_cons, IH. reflexivity.
  - rewrite IH. destruct (decide (now - t < RATE_LIMIT_WINDOW)%Z); [lia|reflexivity].
Qed.

Lemma in_window_app (now : Z) (a b : list Z) :
  in_window now (a ++ b) = in_window now a ++ in_window now b.
Proof. apply filter_app. Qed.

Lemma accepted_of_app (ip : jsstring) (l1 l2 : list attempt) :
  accepted_of ip (l1 ++ l2) = accepted_of ip l1 ++ accepted_of ip l2.
Proof. unfold accepted_of. now rewrite filter_app, fmap_app. Qed.

Lemma attempts_of_app (ip : jsstring) (l1 l2 : list attempt) :
  attempts_of ip (l1 ++ l2) = attempts_of ip l1 ++ attempts_of ip l2.
Proof. unfold attempts_of. now rewrite filter_app, fmap_app. Qed.

Lemma clock_monotone_snoc (times : list Z) (now : Z) :
  clock_monotone (times ++ [now]) ->
  clock_monotone times /\ Forall (fun t => (t <= now)%Z) times.
Proof.
  unfold clock_monotone. rewrite StronglySorted_app. intros (Hall & Hs & _).
  split; [exact Hs|]. apply Forall_forall. intros t Ht.
  apply Hall; [exact Ht|]. now apply list_elem_of_singleton.
Qed.

Lemma clock_monotone_later (times : list Z) (t now : Z) :
  clock_monotone (times ++ [t]) -> (t <= now)%Z -> clock_monotone (times ++ [now]).
Proof.
  intros H Hle. apply clock_monotone_snoc in H as [Hs Hall].
  apply StronglySorted_app_2; [|exact Hs|repeat constructor].
  intros x y Hx Hy. apply list_elem_of_singleton in Hy. subst y.
  rewrite Forall_forall in Hall. specialize (Hall x Hx). lia.
Qed.

(** With a clock that does not go backwards, the stored timestamps of a
    client inside the window of a later [now] are the accepted calls of
    that client inside that window. *)
Lemma stored_accepted (calls : list (Z * jsstring)) (ip : jsstring) (now : Z) :
  clock_monotone (calls.*1 ++ [now]) ->
  in_window now (stored ip (run_checks calls ∅).2)
  = in_window now (accepted_of ip (run_checks calls ∅).1).
Proof.
  revert now. induction calls as [|[t ip'] calls IH] using rev_ind; intros now Hmono.
  - reflexivity.
  - rewrite fmap_app in Hmono. simpl in Hmono.
    apply clock_monotone_snoc in Hmono as [Hmono Hle].
    apply Forall_app in Hle as [_ Hle]. inversion Hle as [|? ? Ht _]; subst.
    assert (in_window now (stored ip (run_checks calls ∅).2)
            = in_window now (accepted_of ip (run_checks calls ∅).1)) as IHnow.
    { apply IH. now apply (clock_monotone_later _ t). }
    specialize (IH t Hmono).
    rewrite run_checks_app. destruct (run_checks calls ∅) as [log m]. cbn [fst snd] in *.
    cbn [run_checks]. rewrite checkRateLimit_result.
    destruct (decide _) as [Hge|Hlt]; cbn [fst snd].
    + rewrite accepted_of_app, in_window_app. unfold accepted_of at 2.
      rewrite filter_cons, decide_False by (cbn; intros [_ ?]; discriminate).
      rewrite filter_nil. simpl. now rewrite app_nil_r.
    + rewrite accepted_of_app, in_window_app, stored_insert.
      unfold accepted_of at 2. rewrite filter_cons, filter_nil. cbn.
      destruct (decide (ip' = ip)) as [->|Hne].
      * rewrite decide_True by auto. cbn.
        now rewrite in_window_app, in_window_idem, IHnow by exact Ht.
      * rewrite decide_False by (intros [? _]; contradiction).
        cbn. now rewrite app_nil_r.
Qed.

Lemma accepted_attempts_length (ip : jsstring) (now : Z) (log : list attempt) :
  (length (in_window now (accepted_of ip log))
   <= length (in_window now (attempts_of ip log)))%nat.
Proof.
  unfold accepted_of, attempts_of, in_window.
  induction log as [|a log IH]; [reflexivity|].
  rewrite !filter_cons.
  destruct (decide (at_ip a = ip)) as [Hip|Hip].
  - destruct (decide (at_ip a = ip /\ at_allowed a = true)) as [_|_].
    + rewrite !fmap_cons, !filter_cons. destruct (decide _); simpl; lia.
    + rewrite !fmap_cons, !filter_cons. destruct (decide _); simpl; lia.
  - rewrite decide_False by (intros [? _]; contradiction). exact IH.
Qed.

(** *** What is stored was attempted *)

Lemma filter_sublist_mono {A} (P : A -> Prop) `{forall x, Decision (P x)}
    (l1 l2 : list A) :
  l1 `sublist_of` l2 -> filter P l1 `sublist_of` filter P l2.
Proof.
  induction 1 as [|x l1 l2 _ IH|x l1 l2 _ IH]; [constructor| |].
  - rewrite !filter_cons. destruct (decide (P x)); [now constructor|exact IH].
  - rewrite filter_cons. destruct (decide (P x)); [now constructor|exact IH].
Qed.

(** Whatever the clock does, the list stored for a client is a selection,
    in order, of the times of the calls of that client. *)
Lemma stored_sublist_attempts (calls : list (Z * jsstring)) (ip : jsstring) :
  stored ip (run_checks calls ∅).2 `sublist_of` attempts_of ip (run_checks calls ∅).1.
Proof.
  induction calls as [|[t ip'] calls IH] using rev_ind.
  - reflexivity.
  - rewrite run_checks_app. destruct (run_checks calls ∅) as [log m]. cbn [fst snd] in *.
    cbn [run_checks]. rewrite checkRateLimit_result.
    destruct (decide _) as [Hge|Hlt]; cbn [fst snd]; rewrite attempts_of_app.
    + now apply sublist_inserts_r.
    + rewrite stored_insert. unfold attempts_of at 2.
      rewrite filter_cons, filter_nil. cbn.
      destruct (decide (ip' = ip)) as [->|Hne]; cbn.
      * apply sublist_app; [|reflexivity].
        etransitivity; [apply sublist_filter | exact IH].
      * now rewrite app_nil_r.
Qed.

(** C3.  With the threshold 10 and the window of 60 seconds.  When the
    clock does not go backwards and 10 (or more) earlier calls of a client
    returned [true] at times inside the window that ends at [now], the
    call at [now] of that client returns [false].  And, whatever the clock
    does, the call of any client with fewer than 10 earlier calls inside
    that window returns [true]. *)
Theorem checkRateLimit_threshold (calls : list (Z * jsstring)) (now : Z) (ip : jsstring) :
  let log := (run_checks calls ∅).1 in
  let m := (run_checks calls ∅).2 in
  MAX_UPLOADS_PER_MINUTE = 10%nat /\ RATE_LIMIT_WINDOW = 60000%Z
  /\ (clock_monotone (calls.*1 ++ [now]) ->
      (10 <= length (in_window now (accepted_of ip log)))%nat ->
      (checkRateLimit now ip m).1 = false)
  /\ (forall other,
        (length (in_window now (attempts_of other log)) < 10)%nat ->
        (checkRateLimit now other m).1 = true).
Proof.
  intros log m. split; [reflexivity|]. split; [reflexivity|]. split.
  - intros Hmono H. rewrite checkRateLimit_result.
    subst m log. rewrite stored_accepted by exact Hmono.
    now rewrite decide_True by exact H.
  - intros other H. rewrite checkRateLimit_result.
    pose proof (stored_sublist_attempts calls other) as Hsub. fold m log in Hsub.
    apply (filter_sublist_mono (fun t => (now - t < RATE_LIMIT_WINDOW)%Z)) in Hsub.
    apply sublist_length in Hsub. fold (in_window now (stored other m)) in Hsub.
    fold (in_window now (attempts_of other log)) in Hsub.
    rewrite decide_False; [reflexivity|]. unfold MAX_UPLOADS_PER_MINUTE. lia.
Qed.

Lemma checkRateLimit_threshold_witness :
  (checkRateLimit 10 (js "203.0.113.7")
     (run_checks
        [(0, js "203.0.113.7"); (1, js "203.0.113.7"); (2, js "203.0.113.7");
         (3, js "203.0.113.7"); (4, js "203.0.113.7"); (5, js "203.0.113.7");
         (6, js "203.0.113.7"); (7, js "203.0.113.7"); (8, js "203.0.113.7");
         (9, js "203.0.113.7")]%Z ∅).2).1 = false
  /\ (checkRateLimit 10 (js "198.51.100.2")
        (run_checks
           [(0, js "203.0.113.7"); (1, js "203.0.113.7"); (2, js "203.0.113.7");
            (3, js "203.0.113.7"); (4, js "203.0.113.7"); (5, js "203.0.113.7");
            (6, js "203.0.113.7"); (7, js "203.0.113.7"); (8, js "203.0.113.7");
            (9, js "203.0.113.7")]%Z ∅).2).1 = true.
Proof.
  destruct (checkRateLimit_threshold
              [(0, js "203.0.113.7"); (1, js "203.0.113.7"); (2, js "203.0.113.7");
               (3, js "203.0.113.7"); (4, js "203.0.113.7"); (5, js "203.0.113.7");
               (6, js "203.0.113.7"); (7, js "203.0.113.7"); (8, js "203.0.113.7");
               (9, js "203.0.113.7")]%Z 10%Z (js "203.0.113.7"))
    as (_ & _ & Hsame & Hother).
  split.
  - apply Hsame.
    + unfold clock_monotone. simpl. repeat (constructor; try lia).
    + vm_compute. lia.
  - apply Hother. vm_compute. lia.
Defined.

(** Without the assumption on the clock the first half fails.  The client
    is accepted at the times 0 to 4; the clock jumps forward, a call at
    1000000 is accepted and prunes the five entries; the clock is set back,
    and the calls at 5 to 9 are accepted.  At 10 the ten calls at 0 to 9
    were all accepted less than 60 seconds ago, the stored list holds six
    entries, and the call is accepted. *)
Lemma checkRateLimit_threshold_counterexample :
  let ip := js "203.0.113.7" in
  let calls := [(0, ip); (1, ip); (2, ip); (3, ip); (4, ip); (1000000, ip);
                (5, ip); (6, ip); (7, ip); (8, ip); (9, ip)]%Z in
  let log := (run_checks calls ∅).1 in
  let m := (run_checks calls ∅).2 in
  accepted_of ip log = [0; 1; 2; 3; 4; 1000000; 5; 6; 7; 8; 9]%Z
  /\ (10 <= length (filter (fun t => (0 <= 10 - t < RATE_LIMIT_WINDOW)%Z)
                     (accepted_of ip log)))%nat
  /\ (10 <= length (in_window 10 (accepted_of ip log)))%nat
  /\ stored ip m = [1000000; 5; 6; 7; 8; 9]%Z
  /\ (checkRateLimit 10 ip m).1 = true.
Proof. vm_compute. repeat split; lia. Qed.

(** ** The routes *)

Section Routes.

Variable cwd : jsstring.
Variable __dirname : jsstring.
Hypothesis absolute_dirname : path.isAbsolute __dirname = true.

(** Where a proper file name lands: directly inside the upload
    directory. *)
Lemma resolve_in_uploadDir (name : jsstring) :
  proper name ->
  path.resolve cwd [path.join [uploadDir __dirname; name]]
  = path.resolve cwd [uploadDir __dirname] ++ CHAR_FORWARD_SLASH :: name.
Proof.
  intros Hname.
  destruct (uploadDir_rooted __dirname absolute_dirname) as (segs & Hsegs & ->).
  assert (Forall proper (segs ++ [js "uploads"])) as Hdir.
  { apply Forall_app. split; [exact Hsegs|]. repeat constructor; discriminate. }
  rewrite join_rooted by assumption.
  rewrite (resolve_rooted cwd (segs ++ [js "uploads"])) by exact Hdir.
  rewrite resolve_rooted
    by (apply Forall_app; split; [exact Hdir | constructor; [exact Hname | constructor]]).
  unfold rooted. rewrite join_sep_snoc by (destruct segs; discriminate).
  reflexivity.
Qed.

Lemma get_upload_result (rnd : list byte) (requested : jsstring) (d : disk) :
  let filename := sanitizeFileName requested rnd in
  let target := path.resolve cwd [uploadDir __dirname] ++ CHAR_FORWARD_SLASH :: filename in
  get_upload cwd __dirname rnd requested d
  = match d !! target with
    | Some content => SentFile target content
    | None => Json 404 FileNotFound
    end.
Proof.
  intros filename target. unfold get_upload, serve_upload, existsSync, sendFile.
  fold filename.
  rewrite (resolve_in_uploadDir filename) by apply sanitizeFileName_proper.
  fold target. unfold target at 3. rewrite startsWith_app. cbn [negb].
  destruct (d !! target) as [content|] eqn:E.
  - rewrite bool_decide_eq_true_2 by eauto. reflexivity.
  - rewrite bool_decide_eq_false_2 by (intros [? ?]; discriminate). reflexivity.
Qed.

(** C10.  In [GET /uploads/:filename] the 403 branch is never taken: the
    sanitized name has no separator and is no [.] or [..], so the joined
    path resolves to the upload directory followed by [/] and that name,
    and [startsWith] holds. *)
Theorem get_upload_never_forbidden (rnd : list byte) (requested : jsstring) (d : disk) :
  let filename := sanitizeFileName requested rnd in
  let filePath := path.join [uploadDir __dirname; filename] in
  path.resolve cwd [filePath]
  = path.resolve cwd [uploadDir __dirname] ++ CHAR_FORWARD_SLASH :: filename
  /\ startsWith (path.resolve cwd [filePath]) (path.resolve cwd [uploadDir __dirname]) = true
  /\ get_upload cwd __dirname rnd requested d <> Json 403 AccessDenied.
Proof.
  intros filename filePath.
  pose proof (resolve_in_uploadDir filename (sanitizeFileName_proper requested rnd)) as H.
  fold filePath in H. split; [exact H|]. split.
  - rewrite H. apply startsWith_app.
  - rewrite get_upload_result. now destruct (d !! _).
Qed.

(** *** The route on a disk with symbolic links *)

Lemma is_descendant_child (dir name : jsstring) :
  is_descendant dir (dir ++ CHAR_FORWARD_SLASH :: name) = true.
Proof.
  unfold is_descendant.
  change (dir ++ CHAR_FORWARD_SLASH :: name) with (dir ++ [CHAR_FORWARD_SLASH] ++ name).
  rewrite app_assoc. apply startsWith_app.
Qed.

Lemma Linked_get_upload_result (send_refuses : jsstring -> bool) (rnd : list byte)
    (requested : jsstring) (d : Linked.disk) :
  let filename := sanitizeFileName requested rnd in
  let target := path.resolve cwd [uploadDir __dirname] ++ CHAR_FORWARD_SLASH :: filename in
  Linked.get_upload send_refuses cwd __dirname rnd requested d
  = match d !! target with
    | None => Linked.Json 404 FileNotFound
    | Some e =>
      if send_refuses target then Linked.Next
      else
        match e with
        | Linked.RegularFile realpath content => Linked.SentFile target realpath content
        | Linked.Directory _ => Linked.Next
        end
    end.
Proof.
  intros filename target.
  unfold Linked.get_upload, Linked.serve_upload, Linked.existsSync, Linked.sendFile.
  fold filename.
  rewrite (resolve_in_uploadDir filename) by apply sanitizeFileName_proper.
  fold target. unfold target at 3. rewrite startsWith_app. cbn [negb].
  destruct (d !! target) as [e|] eqn:E.
  - rewrite bool_decide_eq_true_2 by eauto. reflexivity.
  - rewrite bool_decide_eq_false_2 by (intros [? ?]; discriminate). reflexivity.
Qed.

(** On a disk without symbolic links, and when [res.sendFile] refuses
    nothing, the route replies as [get_upload] does. *)
Lemma get_upload_plain (rnd : list byte) (requested : jsstring) (d : disk) :
  Linked.get_upload (fun _ => false) cwd __dirname rnd requested (plain d)
  = match get_upload cwd __dirname rnd requested d with
    | Json status e => Linked.Json status e
    | SentFile p content => Linked.SentFile p p content
    | Uploaded _ _ _ _ _ => Linked.Next
    end.
Proof.
  rewrite Linked_get_upload_result, get_upload_result. cbn zeta.
  unfold plain. rewrite map_lookup_imap.
  now destruct (d !! _).
Qed.

(** C2.  [GET /uploads/:filename] looks up one path: the upload
    directory, [/], and the sanitized name, which holds no separator; as a
    string this path lies below the upload directory, and the reply is
    never 403.  When nothing is found at that path the reply is 404.  A
    reply with file contents sends what is found at that path and nothing
    else; the file sent lies below the upload directory when the path is
    its canonical path, that is, when no symbolic link is followed on the
    way to it. *)
Theorem get_upload_lexical_containment (send_refuses : jsstring -> bool)
    (rnd : list byte) (requested : jsstring) (d : Linked.disk) :
  let filename := sanitizeFileName requested rnd in
  let resolvedDir := path.resolve cwd [uploadDir __dirname] in
  let resolvedPath := path.resolve cwd [path.join [uploadDir __dirname; filename]] in
  let r := Linked.get_upload send_refuses cwd __dirname rnd requested d in
  resolvedPath = resolvedDir ++ CHAR_FORWARD_SLASH :: filename
  /\ (CHAR_FORWARD_SLASH ∉ filename)
  /\ is_descendant resolvedDir resolvedPath = true
  /\ r <> Linked.Json 403 AccessDenied
  /\ (d !! resolvedPath = None -> r = Linked.Json 404 FileNotFound)
  /\ (forall p realpath content,
        r = Linked.SentFile p realpath content ->
        p = resolvedPath
        /\ d !! resolvedPath = Some (Linked.RegularFile realpath content)
        /\ (realpath = resolvedPath -> is_descendant resolvedDir realpath = true)).
Proof.
  intros filename resolvedDir resolvedPath r.
  pose proof (resolve_in_uploadDir filename (sanitizeFileName_proper requested rnd)) as H.
  fold resolvedPath resolvedDir in H.
  assert (is_descendant resolvedDir resolvedPath = true) as Hin
    by (rewrite H; apply is_descendant_child).
  assert (r = match d !! resolvedPath with
              | None => Linked.Json 404 FileNotFound
              | Some e =>
                if send_refuses resolvedPath then Linked.Next
                else
                  match e with
                  | Linked.RegularFile realpath content =>
                    Linked.SentFile resolvedPath realpath content
                  | Linked.Directory _ => Linked.Next
                  end
              end) as Hr.
  { subst r. rewrite Linked_get_upload_result. cbn zeta.
    fold filename resolvedDir. now rewrite <- H. }
  split; [exact H|]. split; [apply sanitizeFileName_no_traversal_slash|].
  split; [exact Hin|]. split; [|split].
  - rewrite Hr. destruct (d !! resolvedPath) as [[? ?|?]|];
      destruct (send_refuses resolvedPath); discriminate.
  - rewrite Hr. now intros ->.
  - intros p realpath content. rewrite Hr.
    destruct (d !! resolvedPath) as [[real c|?]|];
      destruct (send_refuses resolvedPath); try discriminate.
    intros [= <- <- <-]. split; [reflexivity|]. split; [reflexivity|].
    now intros ->.
Qed.

End Routes.

Lemma get_upload_never_forbidden_witness :
  get_upload (js "/srv") (js "/srv/app") [x00; x01; xab; xff; x10; x9a; x7f; x80]
    (js "../../etc/passwd") (<[js "/etc/passwd" := [x72; x6f; x6f; x74]]> ∅)
  <> Json 403 AccessDenied.
Proof.
  exact (proj2 (proj2 (get_upload_never_forbidden (js "/srv") (js "/srv/app") eq_refl
                         [x00; x01; xab; xff; x10; x9a; x7f; x80] (js "../../etc/passwd")
                         (<[js "/etc/passwd" := [x72; x6f; x6f; x74]]> ∅)))).
Defined.

Lemma get_upload_lexical_containment_witness :
  Linked.get_upload Linked.containsDotFile (js "/srv") (js "/srv/app")
    [x00; x01; xab; xff; x10; x9a; x7f; x80] (js "../../etc/passwd")
    (<[js "/etc/passwd" := Linked.RegularFile (js "/etc/passwd") [x72; x6f; x6f; x74]]> ∅)
  = Linked.Json 404 FileNotFound.
Proof.
  apply (get_upload_lexical_containment (js "/srv") (js "/srv/app") eq_refl
           Linked.containsDotFile
           [x00; x01; xab; xff; x10; x9a; x7f; x80] (js "../../etc/passwd")
           (<[js "/etc/passwd" := Linked.RegularFile (js "/etc/passwd") [x72; x6f; x6f; x74]]> ∅)).
  vm_compute. reflexivity.
Defined.

(** The containment is that of the path as a string, not of the file.
    The upload directory [/srv/app/uploads] holds a symbolic link
    [passwd_0001abff109a7f80] to [/etc/passwd].  A request for [passwd]
    whose sanitizer draws the bytes [0001abff109a7f80] looks up the link:
    [fs.existsSync] finds the file behind it, [path.resolve] leaves the
    path as it is, the guard passes, and [res.sendFile] serves the
    contents of [/etc/passwd], which is not below the upload directory. *)
Lemma get_upload_follows_symlink :
  let passwd := Linked.RegularFile (js "/etc/passwd") [x72; x6f; x6f; x74] in
  let d : Linked.disk :=
    <[js "/srv/app/uploads/passwd_0001abff109a7f80" := passwd]>
      (<[js "/etc/passwd" := passwd]> ∅) in
  let resolvedDir := path.resolve (js "/srv") [uploadDir (js "/srv/app")] in
  Linked.get_upload Linked.containsDotFile (js "/srv") (js "/srv/app")
    [x00; x01; xab; xff; x10; x9a; x7f; x80] (js "passwd") d
  = Linked.SentFile (js "/srv/app/uploads/passwd_0001abff109a7f80") (js "/etc/passwd")
      [x72; x6f; x6f; x74]
  /\ resolvedDir = js "/srv/app/uploads"
  /\ is_descendant resolvedDir (js "/etc/passwd") = false.
Proof. vm_compute. repeat split. Qed.


(** ** The upload gate *)

(** C7.  The gate checks the extension first and stops at the first
    failure: a file whose lower-cased extension is not in
    [ALLOWED_EXTENSIONS] is refused with the extension error whatever its
    MIME type is, and the MIME type error is given exactly when the
    extension is allowed and the MIME type is not. *)
Theorem fileFilter_extension_first (file : file_part) :
  isAllowedExtension (part_originalname file)
  = bool_decide (toLowerCase (path.extname (part_originalname file))
                 ∈ [js ".jpg"; js ".jpeg"; js ".png"; js ".gif"; js ".pdf"; js ".txt"])
  /\ (isAllowedExtension (part_originalname file) = false ->
      fileFilter file = Some ExtensionNotAllowed)
  /\ (fileFilter file = Some MimeTypeNotAllowed <->
      isAllowedExtension (part_originalname file) = true
      /\ isAllowedMimeType (part_mimetype file) = false)
  /\ (fileFilter file = None <->
      isAllowedExtension (part_originalname file) = true
      /\ isAllowedMimeType (part_mimetype file) = true).
Proof.
  unfold fileFilter. split; [reflexivity|].
  destruct (isAllowedExtension (part_originalname file));
    destruct (isAllowedMimeType (part_mimetype file)); cbn [negb];
    repeat split; try discriminate; try reflexivity;
    try (intros [? ?]; discriminate).
Qed.

Example fileFilter_both_disallowed :
  fileFilter (mk_file_part (js "file") (js "setup.EXE") (js "application/x-msdownload") [])
  = Some ExtensionNotAllowed.
Proof. reflexivity. Qed.

Example fileFilter_upper_case_extension :
  fileFilter (mk_file_part (js "file") (js "holiday.JPG") (js "image/jpeg") []) = None.
Proof. reflexivity. Qed.

(** ** [POST /upload] *)

Section Upload.

Variable cwd : jsstring.
Variable __dirname : jsstring.

Lemma upload_single_cases (rnd : list byte) (f : file_part) (d : disk) :
  let res := upload_single cwd __dirname rnd (Some f) d in
  (res = (MulterError LIMIT_UNEXPECTED_FILE, d) /\ fieldname f <> js "file")
  \/ (exists e, res = (FilterError e, d) /\ fileFilter f = Some e)
  \/ (res = (MulterError LIMIT_FILE_SIZE, delete (upload_target cwd __dirname f rnd) d)
      /\ fileFilter f = None
      /\ (MAX_FILE_SIZE < Z.of_nat (length (data f)))%Z)
  \/ (res = (MulterDone
               (Some (mk_req_file (part_originalname f) (part_mimetype f)
                        (sanitizeFileName (part_originalname f) rnd)
                        (path.join [uploadDir __dirname;
                                    sanitizeFileName (part_originalname f) rnd])
                        (Z.of_nat (length (data f))))),
             <[upload_target cwd __dirname f rnd := data f]> d)
      /\ fileFilter f = None
      /\ (Z.of_nat (length (data f)) <= MAX_FILE_SIZE)%Z).
Proof.
  intros res. subst res. unfold upload_single. fold (upload_target cwd __dirname f rnd).
  destruct (bool_decide_reflect (fieldname f = js "file")) as [Hf|Hf]; cbn [negb].
  - destruct (fileFilter f) as [e|] eqn:Ef; [right; left; eauto|].
    destruct (Z.ltb_spec MAX_FILE_SIZE (Z.of_nat (length (data f)))).
    + right; right; left. rewrite delete_insert_eq. auto.
    + right; right; right. auto.
  - left. auto.
Qed.

Lemma upload_handler_too_large (file : req_file) (d : disk) :
  checkFileSize file = false ->
  let '(r, d') := upload_handler cwd (Some file) d in
  (r = Json 400 FileTooLarge \/ r = Json 500 UploadFailed)
  /\ d' !! path.resolve cwd [file_path file] = None
  /\ d' ⊆ d.
Proof.
  intros Hsize. unfold upload_handler. rewrite Hsize. cbn [negb].
  unfold unlinkSync, upload_catch, existsSync.
  destruct (bool_decide_reflect (is_Some (d !! path.resolve cwd [file_path file])))
    as [He|He].
  - split; [now left|]. split; [apply lookup_delete_eq | apply delete_subseteq].
  - split; [now right|]. split; [|reflexivity].
    destruct (d !! _) eqn:E; [|reflexivity]. exfalso. apply He. eauto.
Qed.

Lemma upload_handler_accepts (file : req_file) (d : disk) :
  checkFileSize file = true ->
  upload_handler cwd (Some file) d
  = (Uploaded (originalname file) (filename file) (size file) (mimetype file)
       (js "/uploads/" ++ filename file), d).
Proof. intros H. unfold upload_handler. now rewrite H. Qed.

(** C4.  An upload that is refused leaves no file behind: whenever the
    reply of [POST /upload] is not the success reply, every file on disk
    afterwards was there before, with the same contents; a refusal by the
    extension or MIME type check writes nothing; after a refusal for the
    size there is no file at the place the upload was written to.  And
    the final handler, given any file that fails its size check, removes
    the file at [req.file.path] before it replies with the error. *)
Theorem rejected_upload_leaves_no_file (now : Z) (rnd : list byte) (req : request)
    (st : server_state) :
  let r := (post_upload cwd __dirname now rnd req st).1 in
  let st' := (post_upload cwd __dirname now rnd req st).2 in
  (status_of r <> 200%Z -> files st' ⊆ files st)
  /\ (forall f e, part req = Some f -> fileFilter f = Some e -> files st' = files st)
  /\ (forall f, part req = Some f -> r = Json 400 FileTooLarge ->
        files st' !! upload_target cwd __dirname f rnd = None)
  /\ (forall file d,
        checkFileSize file = false ->
        let r := (upload_handler cwd (Some file) d).1 in
        let d' := (upload_handler cwd (Some file) d).2 in
        status_of r <> 200%Z
        /\ d' !! path.resolve cwd [file_path file] = None
        /\ d' ⊆ d).
Proof.
  intros r st'. subst r st'.
  assert (forall file d,
            checkFileSize file = false ->
            let r := (upload_handler cwd (Some file) d).1 in
            let d' := (upload_handler cwd (Some file) d).2 in
            status_of r <> 200%Z
            /\ d' !! path.resolve cwd [file_path file] = None
            /\ d' ⊆ d) as Hhandler.
  { intros file d Hsize. pose proof (upload_handler_too_large file d Hsize) as H.
    destruct (upload_handler cwd (Some file) d) as [r d']. cbn [fst snd].
    destruct H as ([-> | ->] & ? & ?); repeat split; auto; discriminate. }
  unfold post_upload.
  destruct (checkRateLimit now (getClientIp req) (uploadAttempts st)) as [[|] attempts];
    cbn [negb fst snd files].
  2:{ split; [reflexivity|]. split; [reflexivity|]. split; [discriminate | exact Hhandler]. }
  destruct (part req) as [f|] eqn:Epart.
  - pose proof (upload_single_cases rnd f (files st)) as Hcases. cbv zeta in Hcases.
    destruct Hcases as [[-> Hfield] | [(e & -> & He) | [(-> & Hf & Hlen) | (-> & Hf & Hlen)]]];
      cbn [fst snd files].
    + split; [reflexivity|]. split; [reflexivity|]. split; [discriminate | exact Hhandler].
    + split; [reflexivity|]. split; [reflexivity|]. split; [|exact Hhandler].
      intros f' _ [= ->].
      unfold fileFilter in He. repeat destruct (negb _); discriminate.
    + split; [intros _; apply delete_subseteq|]. split; [intros f' e' [= <-]; congruence|].
      split; [|exact Hhandler]. intros f' [= <-] _. apply lookup_delete_eq.
    + rewrite upload_handler_accepts
        by (unfold checkFileSize; cbn [size]; now apply Z.leb_le).
      cbn [fst snd files status_of].
      split; [congruence|]. split; [intros f' e' [= <-]; congruence|].
      split; [discriminate | exact Hhandler].
  - change (upload_single cwd __dirname rnd None (files st))
      with (MulterDone None, files st).
    change (upload_handler cwd None (files st)) with (Json 400 NoFileUploaded, files st).
    cbn [fst snd files].
    split; [reflexivity|]. split; [intros; discriminate|].
    split; [intros; discriminate | exact Hhandler].
Qed.

(** C8.  For an accepted upload the [size] of the success reply is the
    number of bytes of the file that was stored (the file at the upload
    directory joined with the reported [filename]), and it is at most
    [MAX_FILE_SIZE], 5 MiB; a file longer than that is never accepted.
    The final handler, given any file, replies with success only when
    [file.size] is at most [MAX_FILE_SIZE], and reports that size. *)
Theorem accepted_upload_size (now : Z) (rnd : list byte) (req : request)
    (st : server_state) :
  let r := (post_upload cwd __dirname now rnd req st).1 in
  let st' := (post_upload cwd __dirname now rnd req st).2 in
  MAX_FILE_SIZE = (5 * 1024 * 1024)%Z
  /\ (forall orig name sz mime p,
        r = Uploaded orig name sz mime p ->
        exists f,
          part req = Some f
          /\ files st' !! path.resolve cwd [path.join [uploadDir __dirname; name]]
             = Some (data f)
          /\ sz = Z.of_nat (length (data f))
          /\ (sz <= MAX_FILE_SIZE)%Z)
  /\ (forall f, part req = Some f ->
        (MAX_FILE_SIZE < Z.of_nat (length (data f)))%Z -> status_of r <> 200%Z)
  /\ (forall file d orig name sz mime p,
        (upload_handler cwd (Some file) d).1 = Uploaded orig name sz mime p ->
        sz = size file /\ (size file <= MAX_FILE_SIZE)%Z).
Proof.
  intros r st'. subst r st'. split; [reflexivity|].
  assert (forall file d orig name sz mime p,
            (upload_handler cwd (Some file) d).1 = Uploaded orig name sz mime p ->
            sz = size file /\ (size file <= MAX_FILE_SIZE)%Z) as Hhandler.
  { intros file d orig name sz mime p. destruct (checkFileSize file) eqn:E.
    - rewrite upload_handler_accepts by exact E. cbn [fst]. intros [= _ _ <- _ _].
      split; [reflexivity|]. now apply Z.leb_le.
    - pose proof (upload_handler_too_large file d E) as H.
      destruct (upload_handler cwd (Some file) d) as [r d']. cbn [fst].
      destruct H as ([-> | ->] & _); discriminate. }
  unfold post_upload.
  destruct (checkRateLimit now (getClientIp req) (uploadAttempts st)) as [[|] attempts];
    cbn [negb fst snd files].
  2:{ split; [discriminate|]. split; [discriminate | exact Hhandler]. }
  destruct (part req) as [f|] eqn:Epart.
  - pose proof (upload_single_cases rnd f (files st)) as Hcases. cbv zeta in Hcases.
    destruct Hcases as [[-> Hfield] | [(e & -> & He) | [(-> & Hf & Hlen) | (-> & Hf & Hlen)]]];
      cbn [fst snd files].
    + split; [discriminate|]. split; [discriminate | exact Hhandler].
    + split; [discriminate|]. split; [discriminate | exact Hhandler].
    + split; [discriminate|]. split; [discriminate | exact Hhandler].
    + rewrite upload_handler_accepts
        by (unfold checkFileSize; cbn [size]; now apply Z.leb_le).
      cbn [fst snd files status_of originalname filename size mimetype].
      split; [|split; [|exact Hhandler]].
      * intros orig name sz mime p [= <- <- <- <- <-]. exists f.
        split; [reflexivity|]. split; [apply lookup_insert_eq|]. auto.
      * intros f' [= <-] Hbig. lia.
  - change (upload_single cwd __dirname rnd None (files st))
      with (MulterDone None, files st).
    change (upload_handler cwd None (files st)) with (Json 400 NoFileUploaded, files st).
    cbn [fst snd files].
    split; [intros; discriminate|]. split; [intros; discriminate | exact Hhandler].
Qed.

End Upload.

(** * Further properties *)

(** ** The sanitizer *)

Lemma replace_dotdot_length (s : jsstring) :
  (length (replace_dotdot s) <= length s)%nat.
Proof.
  induction s as [| c | c d s IH1 IH2] using pair_induction; try (simpl; lia).
  rewrite replace_dotdot_cons.
  destruct ((c =? CHAR_DOT) && (d =? CHAR_DOT)); simpl in *; lia.
Qed.

Lemma sanitized_of_length (fileName : jsstring) :
  (length (sanitized_of fileName) <= length fileName)%nat.
Proof.
  pose proof (replace_dotdot_valid _ (replace_invalid_valid fileName)) as Hv.
  pose proof (replace_dotdot_length (replace_invalid fileName)) as Hl.
  unfold replace_invalid in Hl at 2. rewrite length_map in Hl.
  destruct (replace_leading_dots_suffix (replace_dotdot (replace_invalid fileName)))
    as [pre Hpre].
  unfold sanitized_of. set (s := replace_leading_dots _) in *.
  assert (valid s) as Hs.
  { unfold valid in *. rewrite Hpre in Hv. now apply Forall_app in Hv as [_ Hv]. }
  rewrite (trim_valid s Hs). rewrite Hpre, length_app in Hl. lia.
Qed.

(** X1.  The name [sanitizeFileName] returns holds only characters of
    [[A-Za-z0-9._-]], does not start with a dot, and has between
    [1 + 2 * |rnd|] and [|fileName| + 1 + 2 * |rnd|] code units; it is
    never empty. *)
Theorem sanitizeFileName_shape (fileName : jsstring) (rnd : list byte) :
  Forall (fun c => is_valid_char c = true) (sanitizeFileName fileName rnd)
  /\ head (sanitizeFileName fileName rnd) <> Some CHAR_DOT
  /\ sanitizeFileName fileName rnd <> []
  /\ (1 + 2 * length rnd <= length (sanitizeFileName fileName rnd)
      <= length fileName + 1 + 2 * length rnd)%nat.
Proof.
  destruct (sanitizeFileName_clean fileName rnd) as (Hv & _ & Hh).
  pose proof (sanitizeFileName_length fileName rnd) as Hl.
  pose proof (sanitized_of_length fileName) as Hs.
  split; [exact Hv|]. split; [exact Hh|]. split; [|lia].
  intros E. rewrite E in Hl. simpl in Hl. lia.
Qed.

Lemma hex_digit_inj (m n : N) : m < 16 -> n < 16 -> hex_digit m = hex_digit n -> m = n.
Proof.
  unfold hex_digit. intros Hm Hn.
  destruct (N.ltb_spec m 10), (N.ltb_spec n 10); lia.
Qed.

Lemma byte_nibbles_inj (a b : byte) :
  Byte.to_N a / 16 = Byte.to_N b / 16 ->
  Byte.to_N a mod 16 = Byte.to_N b mod 16 -> a = b.
Proof.
  intros Hd Hm.
  assert (Byte.to_N a = Byte.to_N b) as E.
  { rewrite (N.div_mod (Byte.to_N a) 16), (N.div_mod (Byte.to_N b) 16) by lia.
    now rewrite Hd, Hm. }
  pose proof (Byte.of_to_N a) as Ha. rewrite E, Byte.of_to_N in Ha. congruence.
Qed.

Lemma toString_hex_inj (buf1 buf2 : list byte) :
  toString_hex buf1 = toString_hex buf2 -> buf1 = buf2.
Proof.
  unfold toString_hex. revert buf2.
  induction buf1 as [|a buf1 IH]; intros [|b buf2]; simpl; try discriminate;
    [reflexivity|].
  intros [= H1 H2 H3].
  pose proof (Byte.to_N_bounded a). pose proof (Byte.to_N_bounded b).
  apply hex_digit_inj in H1;
    [|apply N.Div0.div_lt_upper_bound; lia|apply N.Div0.div_lt_upper_bound; lia].
  apply hex_digit_inj in H2; [|apply N.mod_lt; lia|apply N.mod_lt; lia].
  f_equal; [now apply byte_nibbles_inj | now apply IH].
Qed.

(** X2.  For one file name, two calls of [sanitizeFileName] return the
    same name only when [crypto.randomBytes] returned the same bytes: the
    random buffer can be read back from the name. *)
Theorem sanitizeFileName_random_inj (fileName : jsstring) (rnd1 rnd2 : list byte) :
  sanitizeFileName fileName rnd1 = sanitizeFileName fileName rnd2 -> rnd1 = rnd2.
Proof.
  rewrite !sanitizeFileName_split. intros E.
  apply app_inv_head in E. apply app_inv_head in E. apply app_inv_tail in E.
  now apply toString_hex_inj.
Qed.

Lemma sanitizeFileName_random_inj_witness :
  [x00; x01; xab; xff; x10; x9a; x7f; x80] = [x00; x01; xab; xff; x10; x9a; x7f; x80].
Proof.
  exact (sanitizeFileName_random_inj (js "report.pdf")
           [x00; x01; xab; xff; x10; x9a; x7f; x80]
           [x00; x01; xab; xff; x10; x9a; x7f; x80] eq_refl).
Defined.

Lemma lastIndexOf_app (a b : jsstring) (c : N) :
  lastIndexOf (a ++ b) c
  = match lastIndexOf b c with
    | Some k => Some (length a + k)%nat
    | None => lastIndexOf a c
    end.
Proof.
  induction a as [|d a IH]; simpl app.
  - now destruct (lastIndexOf b c).
  - rewrite !lastIndexOf_cons, IH. now destruct (lastIndexOf b c).
Qed.

Lemma lastIndexOf_none (s : jsstring) (c : N) :
  lastIndexOf s c = None <-> Forall (fun d => d <> c) s.
Proof.
  induction s as [|d s IH]; [split; [constructor | reflexivity]|].
  rewrite lastIndexOf_cons. split.
  - destruct (lastIndexOf s c); [discriminate|].
    destruct (N.eqb_spec d c); [discriminate|]. intros _.
    constructor; [assumption | now apply IH].
  - intros H. inversion H as [|? ? Hd Hs]; subst. apply IH in Hs. rewrite Hs.
    apply N.eqb_neq in Hd. now rewrite Hd.
Qed.

Lemma lastIndexOf_drop (s : jsstring) (c : N) (k : nat) :
  lastIndexOf s c = Some k -> lastIndexOf (drop k s) c = Some O.
Proof.
  revert k; induction s as [|d s IH]; intros k; [discriminate|].
  rewrite lastIndexOf_cons. destruct (lastIndexOf s c) as [j|] eqn:Ej.
  - intros [= <-]. simpl. now apply IH.
  - destruct (N.eqb_spec d c) as [->|]; [|discriminate]. intros [= <-].
    rewrite drop_0, lastIndexOf_cons, Ej. now rewrite N.eqb_refl.
Qed.

(** Where the last dot of the result is: in the extension that was there
    before the hash came in. *)
Lemma split_ext_sanitizeFileName (fileName : jsstring) (rnd : list byte) :
  Reference.split_ext (sanitizeFileName fileName rnd)
  = (fst (Reference.split_ext (sanitized_of fileName)) ++ js "_" ++ toString_hex rnd,
     snd (Reference.split_ext (sanitized_of fileName))).
Proof.
  rewrite sanitizeFileName_split.
  assert (lastIndexOf (js "_" ++ toString_hex rnd) CHAR_DOT = None) as Hmid.
  { apply lastIndexOf_none. apply Forall_app. split; [repeat constructor; discriminate|].
    eapply Forall_impl; [apply toString_hex_digits|]. apply hex_digit_not_dot. }
  assert (forall b e : jsstring,
            lastIndexOf e CHAR_DOT = Some O \/ (e = [] /\ lastIndexOf b CHAR_DOT = None) ->
            Reference.split_ext (b ++ js "_" ++ toString_hex rnd ++ e)
            = (b ++ js "_" ++ toString_hex rnd, e)) as Hsplit.
  { intros b e He. unfold Reference.split_ext. fold CHAR_DOT.
    replace (b ++ js "_" ++ toString_hex rnd ++ e)
      with ((b ++ js "_" ++ toString_hex rnd) ++ e) by now rewrite <- !app_assoc.
    rewrite lastIndexOf_app. destruct He as [He | [-> He]].
    - rewrite He, Nat.add_0_r. now rewrite take_app_length, drop_app_length.
    - cbn [lastIndexOf]. rewrite lastIndexOf_app, Hmid, He. now rewrite app_nil_r. }
  apply Hsplit. unfold Reference.split_ext. fold CHAR_DOT.
  destruct (lastIndexOf (sanitized_of fileName) CHAR_DOT) as [k|] eqn:Ek; cbn [fst snd].
  - left. now apply lastIndexOf_drop.
  - now right.
Qed.

Lemma sanitizeFileName_extname_eq (fileName : jsstring) (rnd : list byte) :
  path.extname (sanitizeFileName fileName rnd) = path.extname (sanitized_of fileName)
  /\ path.basename (sanitizeFileName fileName rnd)
       (path.extname (sanitizeFileName fileName rnd))
     = path.basename (sanitized_of fileName) (path.extname (sanitized_of fileName))
       ++ js "_" ++ toString_hex rnd.
Proof.
  pose proof (sanitizeFileName_clean fileName rnd) as Hr.
  pose proof (sanitized_of_clean fileName) as Hs.
  split.
  - rewrite (extname_clean _ Hr), (extname_clean _ Hs).
    now rewrite split_ext_sanitizeFileName.
  - rewrite (basename_clean _ Hr), (basename_clean _ Hs).
    now rewrite split_ext_sanitizeFileName.
Qed.

(** X3.  The hash goes in front of the extension and nowhere else:
    [path.extname] of the result is [path.extname] of the cleaned name,
    the base name of the result is the cleaned base name followed by [_]
    and the hash, and so the extension check gives the same answer on
    the result as on the cleaned name. *)
Theorem sanitizeFileName_extname (fileName : jsstring) (rnd : list byte) :
  let sanitized := sanitized_of fileName in
  let result := sanitizeFileName fileName rnd in
  path.extname result = path.extname sanitized
  /\ path.basename result (path.extname result)
     = path.basename sanitized (path.extname sanitized) ++ js "_" ++ toString_hex rnd
  /\ isAllowedExtension result = isAllowedExtension sanitized.
Proof.
  intros sanitized result. subst sanitized result.
  destruct (sanitizeFileName_extname_eq fileName rnd) as [He Hb].
  split; [exact He|]. split; [exact Hb|].
  unfold isAllowedExtension. now rewrite He.
Qed.

(** X4.  A name that has only characters of [[A-Za-z0-9._-]], no [..] and
    no dot in front is kept as it is around the hash: the result is the
    name's own base name, [_], the hash, and the name's own extension, and
    it passes the extension check exactly when the name does. *)
Theorem sanitizeFileName_clean_name (fileName : jsstring) (rnd : list byte) :
  Forall (fun c => is_valid_char c = true) fileName ->
  includes fileName (js "..") = false ->
  head fileName <> Some CHAR_DOT ->
  sanitizeFileName fileName rnd
  = path.basename fileName (path.extname fileName) ++ js "_" ++ toString_hex rnd
    ++ path.extname fileName
  /\ path.basename fileName (path.extname fileName) ++ path.extname fileName = fileName
  /\ path.extname (sanitizeFileName fileName rnd) = path.extname fileName
  /\ isAllowedExtension (sanitizeFileName fileName rnd) = isAllowedExtension fileName.
Proof.
  intros Hv Hd Hh.
  assert (clean fileName) as Hc.
  { split; [exact Hv|]. split; [|exact Hh].
    change (js "..") with [CHAR_DOT; CHAR_DOT] in Hd.
    rewrite includes_dotdot in Hd. now apply negb_false_iff in Hd. }
  pose proof (sanitized_of_id _ Hc) as Hid.
  pose proof (sanitizeFileName_extname_eq fileName rnd) as [H1 _].
  rewrite Hid in H1.
  assert (isAllowedExtension (sanitizeFileName fileName rnd)
          = isAllowedExtension fileName) as H3
    by (unfold isAllowedExtension; now rewrite H1).
  split; [|split; [|split; assumption]].
  - unfold sanitizeFileName. now rewrite Hid.
  - rewrite (basename_clean _ Hc), (extname_clean _ Hc). apply split_ext_app.
Qed.

Lemma sanitizeFileName_clean_name_witness :
  sanitizeFileName (js "report.pdf") [x00; x01; xab; xff; x10; x9a; x7f; x80]
  = path.basename (js "report.pdf") (path.extname (js "report.pdf")) ++ js "_"
    ++ toString_hex [x00; x01; xab; xff; x10; x9a; x7f; x80]
    ++ path.extname (js "report.pdf").
Proof.
  apply (sanitizeFileName_clean_name (js "report.pdf")
           [x00; x01; xab; xff; x10; x9a; x7f; x80]).
  - repeat constructor.
  - reflexivity.
  - discriminate.
Defined.

(** ** The upload gate *)

Lemma extname_loop_no_dot (p : jsstring) (n : nat) (st : path.extname_state) :
  Forall (fun c => c <> CHAR_DOT) p ->
  path.startDot st = (-1)%Z ->
  path.startDot (path.extname_loop p n st) = (-1)%Z.
Proof.
  intros Hp. revert st. induction n as [|i IH]; intros st Hst; [exact Hst|].
  simpl. destruct (charCodeAt p i =? CHAR_FORWARD_SLASH).
  - destruct (negb (path.matchedSlash st)); [exact Hst | now apply IH].
  - apply IH. unfold path.extname_step.
    assert ((charCodeAt p i =? CHAR_DOT) = false) as Hc.
    { apply N.eqb_neq. unfold charCodeAt.
      destruct (nth_in_or_default i p 0) as [Hin | ->]; [|discriminate].
      rewrite Forall_forall in Hp. apply Hp. now apply list_elem_of_In. }
    rewrite Hc. destruct (path.end_ st =? -1)%Z; cbn [path.startDot]; rewrite Hst;
      cbn; first [reflexivity | exact Hst].
Qed.

Lemma extname_no_dot (p : jsstring) :
  Forall (fun c => c <> CHAR_DOT) p -> path.extname p = [].
Proof.
  intros Hp. unfold path.extname.
  now rewrite (extname_loop_no_dot p (length p) path.extname_init Hp eq_refl).
Qed.

(** X5.  A file whose name has no dot at all is refused by the gate with
    the extension error, whatever its MIME type and whatever else the name
    holds (separators included). *)
Theorem fileFilter_no_dot (file : file_part) :
  lastIndexOf (part_originalname file) CHAR_DOT = None ->
  isAllowedExtension (part_originalname file) = false
  /\ fileFilter file = Some ExtensionNotAllowed.
Proof.
  intros H. apply lastIndexOf_none in H.
  assert (isAllowedExtension (part_originalname file) = false) as Hext.
  { unfold isAllowedExtension. now rewrite (extname_no_dot _ H). }
  split; [exact Hext|]. unfold fileFilter. now rewrite Hext.
Qed.

Lemma fileFilter_no_dot_witness :
  fileFilter (mk_file_part (js "file") (js "docs/README") (js "text/plain") [x68; x69])
  = Some ExtensionNotAllowed.
Proof.
  exact (proj2 (fileFilter_no_dot
                  (mk_file_part (js "file") (js "docs/README") (js "text/plain") [x68; x69])
                  eq_refl)).
Defined.

Lemma lower_char_class (c d : N) :
  d = CHAR_DOT \/ d = CHAR_FORWARD_SLASH -> (lower_char c =? d) = (c =? d).
Proof.
  unfold lower_char, CHAR_DOT, CHAR_FORWARD_SLASH. intros Hd.
  destruct (N.leb_spec 65 c), (N.leb_spec c 90); cbn [andb]; try reflexivity.
  destruct (N.eqb_spec (c + 32) d), (N.eqb_spec c d); try reflexivity; lia.
Qed.

Lemma charCodeAt_toLowerCase (p : jsstring) (i : nat) :
  charCodeAt (toLowerCase p) i = lower_char (charCodeAt p i).
Proof.
  unfold charCodeAt, toLowerCase. change 0 with (lower_char 0) at 1.
  apply (map_nth lower_char).
Qed.

Lemma extname_step_toLowerCase (i : Z) (c : N) (st : path.extname_state) :
  path.extname_step i (lower_char c) st = path.extname_step i c st.
Proof.
  unfold path.extname_step. now rewrite lower_char_class by now left.
Qed.

Lemma extname_loop_toLowerCase (p : jsstring) (n : nat) (st : path.extname_state) :
  path.extname_loop (toLowerCase p) n st = path.extname_loop p n st.
Proof.
  revert st. induction n as [|i IH]; intros st; [reflexivity|].
  simpl. rewrite charCodeAt_toLowerCase, lower_char_class by now right.
  rewrite extname_step_toLowerCase, !IH. reflexivity.
Qed.

Lemma slice_toLowerCase (p : jsstring) (a b : Z) :
  slice (toLowerCase p) a b = toLowerCase (slice p a b).
Proof.
  unfold slice, toLowerCase. rewrite length_map.
  now rewrite skipn_map, firstn_map.
Qed.

Lemma extname_toLowerCase (p : jsstring) :
  path.extname (toLowerCase p) = toLowerCase (path.extname p).
Proof.
  assert (length (toLowerCase p) = length p) as Hl
    by (unfold toLowerCase; apply length_map).
  unfold path.extname. rewrite Hl, extname_loop_toLowerCase.
  match goal with |- (if ?b then _ else _) = _ => destruct b end;
    [reflexivity | apply slice_toLowerCase].
Qed.

(** X6.  The extension check does not look at the case of the ASCII
    letters of the name: two names that are equal once their letters [A-Z]
    are lowered get the same answer, and the check can be made on the
    lowered name. *)
Theorem isAllowedExtension_case (name1 name2 : jsstring) :
  toLowerCase name1 = toLowerCase name2 ->
  isAllowedExtension name1 = isAllowedExtension name2
  /\ isAllowedExtension name1
     = array_includes ALLOWED_EXTENSIONS (path.extname (toLowerCase name1)).
Proof.
  intros H. unfold isAllowedExtension.
  rewrite <- !extname_toLowerCase, H. split; reflexivity.
Qed.

Lemma isAllowedExtension_case_witness :
  isAllowedExtension (js "Holiday.JPG") = isAllowedExtension (js "holiday.jpg").
Proof.
  exact (proj1 (isAllowedExtension_case (js "Holiday.JPG") (js "holiday.jpg") eq_refl)).
Defined.

(** ** The rate limiter *)

Lemma stored_checkRateLimit_other (now : Z) (ip ip' : jsstring)
    (m : gmap jsstring (list Z)) :
  ip' <> ip -> stored ip (checkRateLimit now ip' m).2 = stored ip m.
Proof.
  intros Hne. rewrite checkRateLimit_result.
  destruct (decide _); cbn [snd]; [reflexivity|].
  rewrite stored_insert. now rewrite decide_False.
Qed.

Lemma checkRateLimit_same_stored (now : Z) (ip : jsstring)
    (m1 m2 : gmap jsstring (list Z)) :
  stored ip m1 = stored ip m2 ->
  (checkRateLimit now ip m1).1 = (checkRateLimit now ip m2).1
  /\ stored ip (checkRateLimit now ip m1).2 = stored ip (checkRateLimit now ip m2).2.
Proof.
  intros H. rewrite !checkRateLimit_result, H.
  destruct (decide _); cbn [fst snd]; [now split|].
  split; [reflexivity|]. now rewrite !stored_insert, !decide_True.
Qed.

Lemma run_checks_own_calls (calls : list (Z * jsstring)) (ip : jsstring)
    (m1 m2 : gmap jsstring (list Z)) :
  stored ip m1 = stored ip m2 ->
  stored ip (run_checks calls m1).2
  = stored ip (run_checks (filter (fun c => c.2 = ip) calls) m2).2.
Proof.
  revert m1 m2. induction calls as [|[t ip'] calls IH]; intros m1 m2 H; [exact H|].
  rewrite filter_cons. cbn [snd run_checks].
  destruct (decide (ip' = ip)) as [->|Hne].
  - cbn [run_checks].
    destruct (checkRateLimit_same_stored t ip m1 m2 H) as [_ H'].
    destruct (checkRateLimit t ip m1) as [ok1 m1'].
    destruct (checkRateLimit t ip m2) as [ok2 m2']. cbn [snd] in H'.
    specialize (IH m1' m2' H').
    destruct (run_checks calls m1'), (run_checks _ m2'). exact IH.
  - pose proof (stored_checkRateLimit_other t ip ip' m1 Hne) as H'.
    destruct (checkRateLimit t ip' m1) as [ok1 m1']. cbn [snd] in H'.
    specialize (IH m1' m2 (eq_trans H' H)).
    destruct (run_checks calls m1'). exact IH.
Qed.

(** X7.  Clients do not influence each other: what [checkRateLimit]
    answers a client, and what it stores for it, after any sequence of
    calls is what it would answer and store had only that client's own
    calls been made. *)
Theorem checkRateLimit_independent (calls : list (Z * jsstring)) (now : Z)
    (ip : jsstring) :
  let own := filter (fun c => c.2 = ip) calls in
  stored ip (run_checks calls ∅).2 = stored ip (run_checks own ∅).2
  /\ (checkRateLimit now ip (run_checks calls ∅).2).1
     = (checkRateLimit now ip (run_checks own ∅).2).1.
Proof.
  intros own. pose proof (run_checks_own_calls calls ip ∅ ∅ eq_refl) as H.
  split; [exact H|]. now apply checkRateLimit_same_stored.
Qed.

(** X8.  However many calls are made, the list stored for a client never
    holds more than [MAX_UPLOADS_PER_MINUTE] timestamps. *)
Theorem uploadAttempts_bounded (calls : list (Z * jsstring)) (ip : jsstring) :
  (length (default [] ((run_checks calls ∅).2 !! ip)) <= 10)%nat.
Proof. exact (run_checks_bounded calls ∅ bounded_empty ip). Qed.

Lemma checkRateLimit_dom (now : Z) (ip : jsstring) (m : gmap jsstring (list Z)) :
  dom (checkRateLimit now ip m).2 = dom m ∪ {[ip]}.
Proof.
  rewrite checkRateLimit_result. destruct (decide _) as [Hge|Hlt]; cbn [snd].
  - assert (ip ∈ dom m) as Hin.
    { apply elem_of_dom. unfold stored in Hge.
      destruct (m !! ip); [eauto|]. simpl in Hge.
      unfold MAX_UPLOADS_PER_MINUTE in Hge. lia. }
    symmetry. rewrite (comm_L (∪)). apply subseteq_union_1_L.
    now apply singleton_subseteq_l.
  - rewrite dom_insert_L. apply (comm_L (∪)).
Qed.

Lemma run_checks_dom (calls : list (Z * jsstring)) (m : gmap jsstring (list Z)) :
  dom (run_checks calls m).2 = dom m ∪ list_to_set calls.*2.
Proof.
  revert m. induction calls as [|[t ip] calls IH]; intros m.
  - simpl. now rewrite (right_id_L ∅ (∪)).
  - cbn [run_checks]. pose proof (checkRateLimit_dom t ip m) as Hd.
    destruct (checkRateLimit t ip m) as [ok m']. cbn [snd] in Hd.
    specialize (IH m'). destruct (run_checks calls m') as [log m''].
    cbn [snd] in *. rewrite IH, Hd. simpl. now rewrite (assoc_L (∪)).
Qed.

(** X9.  [uploadAttempts] keeps a key for every client that has ever
    called [checkRateLimit] and for no one else: no key is ever
    removed. *)
Theorem uploadAttempts_keys (calls : list (Z * jsstring)) :
  dom (run_checks calls ∅).2 = list_to_set calls.*2.
Proof. rewrite run_checks_dom, dom_empty_L. apply (left_id_L ∅ (∪)). Qed.

(** X10.  With a clock that does not go backwards the limiter is an exact
    sliding window over the accepted calls: a call is accepted exactly
    when fewer than 10 earlier calls of the client were accepted inside
    the window of 60 seconds that ends at the call; refused calls do not
    count. *)
Theorem checkRateLimit_exact (calls : list (Z * jsstring)) (now : Z) (ip : jsstring) :
  clock_monotone (calls.*1 ++ [now]) ->
  (checkRateLimit now ip (run_checks calls ∅).2).1
  = bool_decide
      (length (in_window now (accepted_of ip (run_checks calls ∅).1)) < 10)%nat.
Proof.
  intros Hmono. rewrite checkRateLimit_result, stored_accepted by exact Hmono.
  unfold MAX_UPLOADS_PER_MINUTE.
  destruct (decide _) as [H|H]; cbn [fst].
  - symmetry. apply bool_decide_eq_false_2. lia.
  - symmetry. apply bool_decide_eq_true_2. lia.
Qed.

Lemma checkRateLimit_exact_witness :
  (checkRateLimit 70000 (js "203.0.113.7")
     (run_checks
        [(0, js "203.0.113.7"); (1, js "203.0.113.7"); (2, js "203.0.113.7");
         (3, js "203.0.113.7"); (4, js "203.0.113.7"); (5, js "203.0.113.7");
         (6, js "203.0.113.7"); (7, js "203.0.113.7"); (8, js "203.0.113.7");
         (9, js "203.0.113.7"); (10, js "203.0.113.7"); (60003, js "203.0.113.7")]%Z
        ∅).2).1
  = true.
Proof.
  rewrite checkRateLimit_exact.
  - vm_compute. reflexivity.
  - unfold clock_monotone. simpl. repeat (constructor; try lia).
Defined.

Lemma run_checks_stored_times (P : Z -> Prop) (calls : list (Z * jsstring))
    (m : gmap jsstring (list Z)) :
  (forall ip, Forall P (stored ip m)) -> Forall P calls.*1 ->
  forall ip, Forall P (stored ip (run_checks calls m).2).
Proof.
  revert m. induction calls as [|[t ip'] calls IH]; intros m Hm Hcalls; [exact Hm|].
  cbn [run_checks]. simpl in Hcalls. inversion Hcalls as [|? ? Ht Hrest]; subst.
  assert (forall ip, Forall P (stored ip (checkRateLimit t ip' m).2)) as Hm'.
  { intros ip. rewrite checkRateLimit_result. destruct (decide _); cbn [snd]; [apply Hm|].
    rewrite stored_insert. destruct (decide (ip' = ip)); [|apply Hm].
    apply Forall_app. split; [|now repeat constructor].
    unfold in_window. apply Forall_forall. intros x Hx.
    apply list_elem_of_filter in Hx as [_ Hx].
    specialize (Hm ip'). rewrite Forall_forall in Hm. now apply Hm. }
  destruct (checkRateLimit t ip' m) as [ok m']. cbn [snd] in Hm'.
  specialize (IH m' Hm' Hrest). now destruct (run_checks calls m').
Qed.

(** X11.  Once every earlier call is at least 60 seconds old, the next
    call of any client is accepted and its stored list is that call
    alone, however many calls were made or refused before. *)
Theorem checkRateLimit_recovers (calls : list (Z * jsstring)) (now : Z) (ip : jsstring) :
  Forall (fun t => (RATE_LIMIT_WINDOW <= now - t)%Z) calls.*1 ->
  checkRateLimit now ip (run_checks calls ∅).2
  = (true, <[ip := [now]]> (run_checks calls ∅).2).
Proof.
  intros H.
  assert (forall ip', Forall (fun t => (RATE_LIMIT_WINDOW <= now - t)%Z)
                        (stored ip' (∅ : gmap jsstring (list Z)))) as H0.
  { intros ip'. unfold stored. rewrite lookup_empty. constructor. }
  pose proof (run_checks_stored_times _ calls ∅ H0 H ip) as Hs.
  rewrite checkRateLimit_result.
  assert (in_window now (stored ip (run_checks calls ∅).2) = []) as ->.
  { unfold in_window. induction Hs as [|t ts Ht _ IH]; [reflexivity|].
    rewrite filter_cons, decide_False by lia. exact IH. }
  reflexivity.
Qed.

Lemma checkRateLimit_recovers_witness :
  (checkRateLimit 60009 (js "203.0.113.7")
     (run_checks
        [(0, js "203.0.113.7"); (1, js "203.0.113.7"); (2, js "203.0.113.7");
         (3, js "203.0.113.7"); (4, js "203.0.113.7"); (5, js "203.0.113.7");
         (6, js "203.0.113.7"); (7, js "203.0.113.7"); (8, js "203.0.113.7");
         (9, js "203.0.113.7"); (9, js "203.0.113.7")]%Z ∅).2).1
  = true.
Proof.
  rewrite checkRateLimit_recovers; [reflexivity|].
  simpl. unfold RATE_LIMIT_WINDOW. repeat (constructor; try lia).
Defined.

(** ** The client address *)

Lemma or_else_nonempty (a : option jsstring) (b : jsstring) :
  b <> [] -> or_else a b <> [].
Proof. intros Hb. destruct a as [[|c s]|]; simpl; [exact Hb | discriminate | exact Hb]. Qed.

Lemma or_else_falsy (a : option jsstring) (b : jsstring) :
  falsy a -> or_else a b = b.
Proof. now intros [-> | ->]. Qed.

Lemma or_else_truthy (s b : jsstring) : s <> [] -> or_else (Some s) b = s.
Proof. now destruct s. Qed.

Lemma trimStart_suffix (s : jsstring) : exists pre, s = pre ++ trimStart s.
Proof.
  induction s as [|c s [pre IH]]; [now exists []|]. simpl.
  destruct (is_white_space c).
  - exists (c :: pre). simpl. now rewrite <- IH.
  - now exists [].
Qed.

Lemma trim_elem_of (s : jsstring) (c : N) : c ∈ trim s -> c ∈ s.
Proof.
  unfold trim. intros H. apply list_elem_of_In, in_rev, list_elem_of_In in H.
  destruct (trimStart_suffix (rev (trimStart s))) as [pre1 H1].
  assert (c ∈ rev (trimStart s)) as H2 by (rewrite H1; apply elem_of_app; now right).
  apply list_elem_of_In, in_rev, list_elem_of_In in H2.
  destruct (trimStart_suffix s) as [pre2 H3].
  rewrite H3. apply elem_of_app. now right.
Qed.

Lemma before_comma_no_comma (s : jsstring) : 44 ∉ before_comma s.
Proof.
  induction s as [|c s IH]; simpl; [apply not_elem_of_nil|].
  destruct (N.eqb_spec c 44); [apply not_elem_of_nil|].
  intros H. apply elem_of_cons in H as [H | H]; [congruence | contradiction].
Qed.

(** X12.  [getClientIp] never returns the empty string, and it takes the
    first source, in the order of the code, that gives a non-empty string:
    [req.ip]; the first field of [X-Forwarded-For], trimmed (and then it
    holds no comma); [X-Real-IP]; [req.connection.remoteAddress];
    [req.socket.remoteAddress].  It is ["unknown"] when none does, so
    that all such requests share one entry of the rate limiter.  The
    header [X-Forwarded-For] gives nothing when it is absent and when its
    trimmed first field is empty. *)
Theorem getClientIp_cases (req : request) :
  let forwarded := (fun h => trim (before_comma h)) <$> x_forwarded_for req in
  getClientIp req <> []
  /\ (forall s, req_ip req = Some s -> s <> [] -> getClientIp req = s)
  /\ (forall h,
        falsy (req_ip req) -> x_forwarded_for req = Some h ->
        trim (before_comma h) <> [] ->
        getClientIp req = trim (before_comma h) /\ (44 ∉ getClientIp req))
  /\ (forall s,
        falsy (req_ip req) -> falsy forwarded ->
        x_real_ip req = Some s -> s <> [] -> getClientIp req = s)
  /\ (forall s,
        falsy (req_ip req) -> falsy forwarded -> falsy (x_real_ip req) ->
        connection_remoteAddress req = Some s -> s <> [] -> getClientIp req = s)
  /\ (forall s,
        falsy (req_ip req) -> falsy forwarded -> falsy (x_real_ip req) ->
        falsy (connection_remoteAddress req) ->
        socket_remoteAddress req = Some s -> s <> [] -> getClientIp req = s)
  /\ (falsy (req_ip req) -> falsy forwarded -> falsy (x_real_ip req) ->
      falsy (connection_remoteAddress req) -> falsy (socket_remoteAddress req) ->
      getClientIp req = js "unknown")
  /\ (falsy forwarded <->
      x_forwarded_for req = None
      \/ exists h, x_forwarded_for req = Some h /\ trim (before_comma h) = []).
Proof.
  intros forwarded. unfold getClientIp. fold forwarded.
  split; [|split; [|split; [|split; [|split; [|split; [|split]]]]]].
  - repeat apply or_else_nonempty. discriminate.
  - intros s -> Hs. now apply or_else_truthy.
  - intros h Hip Hh Hne. rewrite (or_else_falsy _ _ Hip).
    subst forwarded. rewrite Hh. cbn [fmap option_fmap option_map].
    rewrite or_else_truthy by exact Hne. split; [reflexivity|].
    intros Hc. apply trim_elem_of in Hc. now apply before_comma_no_comma in Hc.
  - intros s H1 H2 -> Hs.
    rewrite (or_else_falsy _ _ H1), (or_else_falsy _ _ H2).
    now apply or_else_truthy.
  - intros s H1 H2 H3 -> Hs.
    rewrite (or_else_falsy _ _ H1), (or_else_falsy _ _ H2), (or_else_falsy _ _ H3).
    now apply or_else_truthy.
  - intros s H1 H2 H3 H4 -> Hs.
    rewrite (or_else_falsy _ _ H1), (or_else_falsy _ _ H2), (or_else_falsy _ _ H3),
      (or_else_falsy _ _ H4).
    now apply or_else_truthy.
  - intros H1 H2 H3 H4 H5.
    now rewrite (or_else_falsy _ _ H1), (or_else_falsy _ _ H2), (or_else_falsy _ _ H3),
      (or_else_falsy _ _ H4), (or_else_falsy _ _ H5).
  - subst forwarded. unfold falsy.
    destruct (x_forwarded_for req) as [h|]; cbn [fmap option_fmap option_map].
    + split.
      * intros [H | H]; [discriminate|]. right. exists h. split; [reflexivity|].
        now injection H.
      * intros [H | (h' & [= <-] & H)]; [discriminate|]. right. now rewrite H.
    + split; auto.
Qed.

(** A header [X-Forwarded-For] whose first field is blank is passed
    over. *)
Example getClientIp_blank_forwarded :
  getClientIp (mk_request None (Some (js " , 10.0.0.2")) (Some (js "10.0.0.9")) None None None)
  = js "10.0.0.9"
  /\ getClientIp (mk_request None (Some (js " , 10.0.0.2")) None None None None)
     = js "unknown".
Proof. split; reflexivity. Qed.

(** ** [POST /upload] as a whole *)

Lemma fileFilter_passes (f : file_part) :
  fileFilter f = None <->
  isAllowedExtension (part_originalname f) = true
  /\ isAllowedMimeType (part_mimetype f) = true.
Proof.
  unfold fileFilter.
  destruct (isAllowedExtension _), (isAllowedMimeType _); cbn [negb];
    split; try discriminate; auto; intros [? ?]; discriminate.
Qed.

Section UploadCases.

Variable cwd : jsstring.
Variable __dirname : jsstring.

(** The replies of [POST /upload] and the state each one leaves. *)
Lemma post_upload_cases (now : Z) (rnd : list byte) (req : request) (st : server_state) :
  let ip := getClientIp req in
  let recorded :=
    <[ip := in_window now (stored ip (uploadAttempts st)) ++ [now]]> (uploadAttempts st) in
  let res := post_upload cwd __dirname now rnd req st in
  ((checkRateLimit now ip (uploadAttempts st)).1 = false
   /\ res = (Json 429 TooManyUploads, st))
  \/ ((checkRateLimit now ip (uploadAttempts st)).1 = true
      /\ ((part req = None
           /\ res = (Json 400 NoFileUploaded, mk_server_state recorded (files st)))
          \/ (exists f, part req = Some f /\ fieldname f <> js "file"
              /\ res = (Json 400 UploadError, mk_server_state recorded (files st)))
          \/ (exists f e, part req = Some f /\ fieldname f = js "file"
              /\ fileFilter f = Some e /\ (e = ExtensionNotAllowed \/ e = MimeTypeNotAllowed)
              /\ res = (Json 400 e, mk_server_state recorded (files st)))
          \/ (exists f, part req = Some f /\ fieldname f = js "file"
              /\ fileFilter f = None
              /\ (MAX_FILE_SIZE < Z.of_nat (length (data f)))%Z
              /\ res = (Json 400 FileTooLarge,
                        mk_server_state recorded
                          (delete (upload_target cwd __dirname f rnd) (files st))))
          \/ (exists f, part req = Some f /\ fieldname f = js "file"
              /\ fileFilter f = None
              /\ (Z.of_nat (length (data f)) <= MAX_FILE_SIZE)%Z
              /\ res = (Uploaded (part_originalname f)
                          (sanitizeFileName (part_originalname f) rnd)
                          (Z.of_nat (length (data f))) (part_mimetype f)
                          (js "/uploads/" ++ sanitizeFileName (part_originalname f) rnd),
                        mk_server_state recorded
                          (<[upload_target cwd __dirname f rnd := data f]> (files st)))))).
Proof.
  intros ip recorded res. subst res. unfold post_upload. fold ip.
  rewrite checkRateLimit_result. fold recorded.
  destruct (decide _) as [Hge|Hlt]; cbn [fst snd negb].
  { left. split; [reflexivity|]. now destruct st. }
  right. split; [reflexivity|].
  destruct (part req) as [f|] eqn:Epart; [|now left].
  right. unfold upload_single. fold (upload_target cwd __dirname f rnd).
  destruct (bool_decide_reflect (fieldname f = js "file")) as [Hf|Hf]; cbn [negb];
    [|left; eauto].
  right. destruct (fileFilter f) as [e|] eqn:Ef.
  { left. exists f, e. repeat split; auto.
    unfold fileFilter in Ef. repeat destruct (negb _); inversion Ef; auto. }
  right. destruct (Z.ltb_spec MAX_FILE_SIZE (Z.of_nat (length (data f)))) as [Hbig|Hok].
  - left. exists f. rewrite delete_insert_eq. repeat split; auto.
  - right. exists f. rewrite upload_handler_accepts
      by (unfold checkFileSize; cbn [size]; now apply Z.leb_le).
    repeat split; auto.
Qed.

(** X13.  A request that the rate limiter refuses gets 429 and changes
    nothing at all: no file, and no entry in [uploadAttempts] (a refused
    request is not counted); and 429 is given for no other reason. *)
Theorem post_upload_rate_limited (now : Z) (rnd : list byte) (req : request)
    (st : server_state) :
  let r := (post_upload cwd __dirname now rnd req st).1 in
  let st' := (post_upload cwd __dirname now rnd req st).2 in
  (status_of r = 429%Z <->
   (checkRateLimit now (getClientIp req) (uploadAttempts st)).1 = false)
  /\ (status_of r = 429%Z -> r = Json 429 TooManyUploads /\ st' = st).
Proof.
  intros r st'. subst r st'.
  destruct (post_upload_cases now rnd req st)
    as [[Hno ->] | [Hyes [[_ ->] | [(f & _ & _ & ->) | [(f & e & _ & _ & _ & _ & ->)
        | [(f & _ & _ & _ & _ & ->) | (f & _ & _ & _ & _ & ->)]]]]]];
    cbn [fst snd status_of]; rewrite ?Hno, ?Hyes;
    (split; [split|]); try discriminate; auto.
Qed.

(** X14.  Every request that passes the rate limiter is counted, whether
    the upload is then accepted or refused: the list stored for the client
    becomes its timestamps inside the window followed by [now], and the
    lists of the other clients stay as they are. *)
Theorem post_upload_counted (now : Z) (rnd : list byte) (req : request)
    (st : server_state) :
  let r := (post_upload cwd __dirname now rnd req st).1 in
  let st' := (post_upload cwd __dirname now rnd req st).2 in
  status_of r <> 429%Z ->
  stored (getClientIp req) (uploadAttempts st')
  = in_window now (stored (getClientIp req) (uploadAttempts st)) ++ [now]
  /\ (forall other, other <> getClientIp req ->
        uploadAttempts st' !! other = uploadAttempts st !! other).
Proof.
  intros r st'. subst r st'.
  destruct (post_upload_cases now rnd req st)
    as [[Hno ->] | [Hyes [[_ ->] | [(f & _ & _ & ->) | [(f & e & _ & _ & _ & _ & ->)
        | [(f & _ & _ & _ & _ & ->) | (f & _ & _ & _ & _ & ->)]]]]]];
    cbn [fst snd status_of uploadAttempts]; intros Hst; try congruence;
    (split; [rewrite stored_insert; now rewrite decide_True
            | intros other Hne; now rewrite lookup_insert_ne]).
Qed.

(** X17.  [POST /upload] answers 200 only when the rate limiter lets the
    request through and the request has a file in the field [file] whose
    extension and MIME type are allowed and whose length is at most
    [MAX_FILE_SIZE]; the reply then reports the original name, the
    sanitized name, the length, the MIME type and the path
    [/uploads/] followed by the sanitized name. *)
Theorem post_upload_accepts (now : Z) (rnd : list byte) (req : request)
    (st : server_state) :
  let r := (post_upload cwd __dirname now rnd req st).1 in
  status_of r = 200%Z ->
  (checkRateLimit now (getClientIp req) (uploadAttempts st)).1 = true
  /\ exists f, part req = Some f
       /\ fieldname f = js "file"
       /\ isAllowedExtension (part_originalname f) = true
       /\ isAllowedMimeType (part_mimetype f) = true
       /\ (Z.of_nat (length (data f)) <= 5 * 1024 * 1024)%Z
       /\ r = Uploaded (part_originalname f)
                (sanitizeFileName (part_originalname f) rnd)
                (Z.of_nat (length (data f))) (part_mimetype f)
                (js "/uploads/" ++ sanitizeFileName (part_originalname f) rnd).
Proof.
  intros r. subst r.
  destruct (post_upload_cases now rnd req st)
    as [[Hno ->] | [Hyes [[Hp ->] | [(f & Hp & Hf & ->) | [(f & e & Hp & Hf & He & _ & ->)
        | [(f & Hp & Hf & He & Hlen & ->) | (f & Hp & Hf & He & Hlen & ->)]]]]]];
    cbn [fst status_of]; try discriminate.
  intros _. split; [exact Hyes|].
  exists f. apply fileFilter_passes in He as [He1 He2].
  unfold MAX_FILE_SIZE in Hlen. repeat split; auto.
Qed.

End UploadCases.

Lemma post_upload_accepts_witness :
  let req :=
    mk_request (Some (js "203.0.113.7")) None None None None
      (Some (mk_file_part (js "file") (js "report.pdf") (js "application/pdf")
               [x25; x50; x44; x46])) in
  exists f, part req = Some f
    /\ fieldname f = js "file"
    /\ isAllowedExtension (part_originalname f) = true
    /\ isAllowedMimeType (part_mimetype f) = true
    /\ (Z.of_nat (length (data f)) <= 5 * 1024 * 1024)%Z
    /\ (post_upload (js "/srv") (js "/srv/app") 1000
          [x00; x01; xab; xff; x10; x9a; x7f; x80] req (mk_server_state ∅ ∅)).1
       = Uploaded (part_originalname f)
           (sanitizeFileName (part_originalname f) [x00; x01; xab; xff; x10; x9a; x7f; x80])
           (Z.of_nat (length (data f))) (part_mimetype f)
           (js "/uploads/"
            ++ sanitizeFileName (part_originalname f)
                 [x00; x01; xab; xff; x10; x9a; x7f; x80]).
Proof.
  intros req.
  refine (proj2 (post_upload_accepts (js "/srv") (js "/srv/app") 1000
                   [x00; x01; xab; xff; x10; x9a; x7f; x80] req (mk_server_state ∅ ∅) _)).
  vm_compute. reflexivity.
Defined.

Lemma post_upload_counted_witness :
  stored (js "203.0.113.7")
    (uploadAttempts
       (post_upload (js "/srv") (js "/srv/app") 1000
          [x00; x01; xab; xff; x10; x9a; x7f; x80]
          (mk_request (Some (js "203.0.113.7")) None None None None
             (Some (mk_file_part (js "file") (js "setup.exe")
                      (js "application/x-msdownload") [x4d; x5a])))
          (mk_server_state ∅ ∅)).2)
  = [1000%Z].
Proof.
  refine (proj1 (post_upload_counted (js "/srv") (js "/srv/app") 1000
                   [x00; x01; xab; xff; x10; x9a; x7f; x80]
                   (mk_request (Some (js "203.0.113.7")) None None None None
                      (Some (mk_file_part (js "file") (js "setup.exe")
                               (js "application/x-msdownload") [x4d; x5a])))
                   (mk_server_state ∅ ∅) _)).
  vm_compute. discriminate.
Defined.

(** ** Uploading and fetching *)

Section UploadAndFetch.

Variable cwd : jsstring.
Variable __dirname : jsstring.
Hypothesis absolute_dirname : path.isAbsolute __dirname = true.

Lemma upload_target_in_uploadDir (f : file_part) (rnd : list byte) :
  upload_target cwd __dirname f rnd
  = path.resolve cwd [uploadDir __dirname]
    ++ CHAR_FORWARD_SLASH :: sanitizeFileName (part_originalname f) rnd.
Proof.
  unfold upload_target.
  apply (resolve_in_uploadDir cwd __dirname absolute_dirname).
  apply sanitizeFileName_proper.
Qed.

Lemma serve_upload_proper (name : jsstring) (d : disk) :
  proper name ->
  serve_upload cwd __dirname name d
  = match d !! (path.resolve cwd [uploadDir __dirname] ++ CHAR_FORWARD_SLASH :: name) with
    | Some content =>
      SentFile (path.resolve cwd [uploadDir __dirname] ++ CHAR_FORWARD_SLASH :: name) content
    | None => Json 404 FileNotFound
    end.
Proof.
  intros Hname. unfold serve_upload, existsSync, sendFile.
  rewrite (resolve_in_uploadDir cwd __dirname absolute_dirname name Hname).
  rewrite startsWith_app. cbn [negb].
  destruct (d !! _) as [content|] eqn:E.
  - rewrite bool_decide_eq_true_2 by eauto. reflexivity.
  - rewrite bool_decide_eq_false_2 by (intros [? ?]; discriminate). reflexivity.
Qed.

(** X15.  [POST /upload] touches the disk only directly inside the upload
    directory: a path whose contents differ after the request is the
    upload directory, [/], and the sanitized name of the uploaded file;
    every other file is as it was. *)
Theorem post_upload_writes_inside (now : Z) (rnd : list byte) (req : request)
    (st : server_state) (p : jsstring) :
  let st' := (post_upload cwd __dirname now rnd req st).2 in
  files st' !! p <> files st !! p ->
  exists f,
    part req = Some f
    /\ p = path.resolve cwd [uploadDir __dirname]
           ++ CHAR_FORWARD_SLASH :: sanitizeFileName (part_originalname f) rnd
    /\ (CHAR_FORWARD_SLASH ∉ sanitizeFileName (part_originalname f) rnd).
Proof.
  intros st'. subst st'.
  destruct (post_upload_cases cwd __dirname now rnd req st)
    as [[Hno ->] | [Hyes [[_ ->] | [(f & _ & _ & ->) | [(f & e & _ & _ & _ & _ & ->)
        | [(f & Hp & _ & _ & _ & ->) | (f & Hp & _ & _ & _ & ->)]]]]]];
    cbn [fst snd files]; intros Hdiff; try congruence.
  - exists f. split; [exact Hp|].
    split; [|apply sanitizeFileName_no_traversal_slash].
    rewrite <- upload_target_in_uploadDir.
    destruct (decide (upload_target cwd __dirname f rnd = p)) as [|Hne]; [auto|].
    now rewrite lookup_delete_ne in Hdiff.
  - exists f. split; [exact Hp|].
    split; [|apply sanitizeFileName_no_traversal_slash].
    rewrite <- upload_target_in_uploadDir.
    destruct (decide (upload_target cwd __dirname f rnd = p)) as [|Hne]; [auto|].
    now rewrite lookup_insert_ne in Hdiff.
Qed.

(** X16.  The file of an accepted upload is on disk, with the reported
    size, at the upload directory, [/], and the reported [filename], and
    the reported [path] is [/uploads/] followed by that [filename]; but
    [GET /uploads/:filename], asked for that [filename], sanitizes it
    again and replies 404, unless a file was already there under the
    sanitized-again name. *)
Theorem upload_then_fetch (now : Z) (rnd rnd2 : list byte) (req : request)
    (st : server_state) (orig name mime reported : jsstring) (sz : Z) :
  let st' := (post_upload cwd __dirname now rnd req st).2 in
  let dir := path.resolve cwd [uploadDir __dirname] in
  (post_upload cwd __dirname now rnd req st).1 = Uploaded orig name sz mime reported ->
  (exists content,
     files st' !! (dir ++ CHAR_FORWARD_SLASH :: name) = Some content
     /\ sz = Z.of_nat (length content))
  /\ reported = js "/uploads/" ++ name
  /\ sanitizeFileName name rnd2 <> name
  /\ (files st !! (dir ++ CHAR_FORWARD_SLASH :: sanitizeFileName name rnd2) = None ->
      get_upload cwd __dirname rnd2 name (files st') = Json 404 FileNotFound).
Proof.
  intros st' dir. subst st'.
  destruct (post_upload_cases cwd __dirname now rnd req st)
    as [[Hno ->] | [Hyes [[_ ->] | [(f & _ & _ & ->) | [(f & e & _ & _ & _ & _ & ->)
        | [(f & Hp & _ & _ & _ & ->) | (f & Hp & _ & _ & _ & ->)]]]]]];
    cbn [fst snd files]; try discriminate.
  intros [= <- <- <- <- <-].
  rewrite upload_target_in_uploadDir. fold dir.
  assert (sanitizeFileName (sanitizeFileName (part_originalname f) rnd) rnd2
          <> sanitizeFileName (part_originalname f) rnd) as Hne.
  { intros E.
    pose proof (sanitizeFileName_length (sanitizeFileName (part_originalname f) rnd) rnd2)
      as Hl.
    rewrite (sanitized_of_id _ (sanitizeFileName_clean (part_originalname f) rnd)) in Hl.
    rewrite E in Hl. lia. }
  split; [|split; [reflexivity|split; [exact Hne|]]].
  - exists (data f). now rewrite lookup_insert_eq.
  - intros Hfree. unfold get_upload.
    rewrite serve_upload_proper by apply sanitizeFileName_proper. fold dir.
    rewrite lookup_insert_ne, Hfree; [reflexivity|].
    intros E. apply app_inv_head in E. injection E as E. now symmetry in E.
Qed.

End UploadAndFetch.

Lemma post_upload_writes_inside_witness :
  exists f,
    Some (mk_file_part (js "file") (js "../../etc/cron.d/job.txt") (js "text/plain")
            [x2a; x20; x2a])
    = Some f
    /\ js "/srv/app/uploads/__etc_cron.d_job_0001abff109a7f80.txt"
       = path.resolve (js "/srv") [uploadDir (js "/srv/app")]
         ++ CHAR_FORWARD_SLASH
            :: sanitizeFileName (part_originalname f) [x00; x01; xab; xff; x10; x9a; x7f; x80]
    /\ (CHAR_FORWARD_SLASH
        ∉ sanitizeFileName (part_originalname f) [x00; x01; xab; xff; x10; x9a; x7f; x80]).
Proof.
  apply (post_upload_writes_inside (js "/srv") (js "/srv/app") eq_refl 1000
           [x00; x01; xab; xff; x10; x9a; x7f; x80]
           (mk_request (Some (js "203.0.113.7")) None None None None
              (Some (mk_file_part (js "file") (js "../../etc/cron.d/job.txt")
                       (js "text/plain") [x2a; x20; x2a])))
           (mk_server_state ∅ ∅)).
  vm_compute. discriminate.
Defined.

Lemma upload_then_fetch_witness :
  get_upload (js "/srv") (js "/srv/app") [x11; x22; x33; x44; x55; x66; x77; x88]
    (js "report_0001abff109a7f80.pdf")
    (files (post_upload (js "/srv") (js "/srv/app") 1000
              [x00; x01; xab; xff; x10; x9a; x7f; x80]
              (mk_request (Some (js "203.0.113.7")) None None None None
                 (Some (mk_file_part (js "file") (js "report.pdf")
                          (js "application/pdf") [x25; x50; x44; x46])))
              (mk_server_state ∅ ∅)).2)
  = Json 404 FileNotFound.
Proof.
  apply (upload_then_fetch (js "/srv") (js "/srv/app") eq_refl 1000
           [x00; x01; xab; xff; x10; x9a; x7f; x80]
           [x11; x22; x33; x44; x55; x66; x77; x88]
           (mk_request (Some (js "203.0.113.7")) None None None None
              (Some (mk_file_part (js "file") (js "report.pdf")
                       (js "application/pdf") [x25; x50; x44; x46])))
           (mk_server_state ∅ ∅)
           (js "report.pdf") (js "report_0001abff109a7f80.pdf") (js "application/pdf")
           (js "/uploads/report_0001abff109a7f80.pdf") 4).
  - vm_compute. reflexivity.
  - vm_compute. reflexivity.
Defined.

(** ** The second upload server *)

Lemma extname_inv_post (p : jsstring) (n : nat) (st : path.extname_state) :
  extname_inv p n st -> extname_post p st.
Proof.
  intros [(H & _) | (_ & He & Hd & Hj)]; [now left|].
  destruct Hd as [Hd | Hd]; [right; now left|].
  right. right. split; [lia|]. split; [lia|]. intros j Hjr. apply Hj. lia.
Qed.

Lemma extname_step_inv (p : jsstring) (i : nat) (st : path.extname_state) :
  (i < length p)%nat -> charCodeAt p i <> CHAR_FORWARD_SLASH ->
  extname_inv p (S i) st ->
  extname_inv p i (path.extname_step (Z.of_nat i) (charCodeAt p i) st).
Proof.
  intros Hi Hc Hinv. right. unfold path.extname_step.
  destruct Hinv as [(He & Hd & Hm) | (Hm & He & Hd & Hj)].
  - destruct (Z.eqb_spec (path.end_ st) (-1)) as [_|E]; [|contradiction].
    cbn [path.startDot path.end_ path.preDotState path.startPart path.matchedSlash].
    destruct (Z.eqb_spec (path.startDot st) (-1)) as [_|E]; [|contradiction].
    cbn [negb].
    destruct (charCodeAt p i =? CHAR_DOT);
      cbn [path.startDot path.end_ path.matchedSlash];
      (split; [reflexivity|]; split; [lia|]; split; [lia|]);
      intros j Hjr; assert (j = i) as -> by lia; exact Hc.
  - destruct (Z.eqb_spec (path.end_ st) (-1)) as [E|_]; [lia|].
    assert (forall j, (Z.of_nat i <= Z.of_nat j < path.end_ st)%Z ->
                      charCodeAt p j <> CHAR_FORWARD_SLASH) as Hj'.
    { intros j Hjr. destruct (decide (j = i)) as [->|]; [exact Hc|]. apply Hj. lia. }
    destruct (charCodeAt p i =? CHAR_DOT).
    + destruct (Z.eqb_spec (path.startDot st) (-1)) as [E|E].
      * cbn [path.startDot path.end_ path.matchedSlash].
        split; [exact Hm|]. split; [lia|]. split; [lia | exact Hj'].
      * destruct (negb _); cbn [path.startDot path.end_ path.matchedSlash];
          (split; [exact Hm|]; split; [lia|]; split; [right; lia | exact Hj']).
    + destruct (negb _); cbn [path.startDot path.end_ path.matchedSlash];
        (split; [exact Hm|]; split; [lia|]; split; [|exact Hj']);
        (destruct Hd as [Hd|Hd]; [now left | right; lia]).
Qed.

Lemma extname_loop_post (p : jsstring) (n : nat) (st : path.extname_state) :
  (n <= length p)%nat -> extname_inv p n st ->
  extname_post p (path.extname_loop p n st).
Proof.
  revert st. induction n as [|i IH]; intros st Hn Hinv.
  - now apply (extname_inv_post p 0).
  - simpl. destruct (N.eqb_spec (charCodeAt p i) CHAR_FORWARD_SLASH) as [Hc|Hc].
    + destruct (path.matchedSlash st) eqn:Hm; cbn [negb].
      * apply IH; [lia|]. destruct Hinv as [H | (Hm' & _)]; [now left | congruence].
      * apply extname_inv_post in Hinv.
        destruct Hinv as [H | [H | H]]; [now left | right; now left | right; now right].
    + apply IH; [lia|]. apply extname_step_inv; [lia | exact Hc | exact Hinv].
Qed.

Lemma slice_elem_of (p : jsstring) (a b : nat) (c : N) :
  (a <= b <= length p)%nat ->
  c ∈ slice p (Z.of_nat a) (Z.of_nat b) ->
  exists j, (a <= j < b)%nat /\ charCodeAt p j = c.
Proof.
  intros Hab. rewrite slice_nat by exact Hab. intros Hc.
  apply list_elem_of_lookup in Hc as [k Hk].
  apply lookup_take_Some in Hk as [Hk Hlt].
  rewrite lookup_drop in Hk. exists (a + k)%nat. split; [lia|].
  unfold charCodeAt. now apply nth_lookup_Some with (d := 0) in Hk.
Qed.

(** [path.extname] never returns a separator. *)
Lemma extname_no_slash (p : jsstring) : CHAR_FORWARD_SLASH ∉ path.extname p.
Proof.
  unfold path.extname.
  assert (extname_post p (path.extname_loop p (length p) path.extname_init)) as Hpost.
  { apply extname_loop_post; [lia|]. left. repeat split. }
  set (st := path.extname_loop p (length p) path.extname_init) in *.
  destruct (Z.eqb_spec (path.startDot st) (-1)) as [|Hd]; [apply not_elem_of_nil|].
  destruct (Z.eqb_spec (path.end_ st) (-1)) as [|He]; [apply not_elem_of_nil|].
  cbn [orb]. destruct (_ || _); [apply not_elem_of_nil|].
  destruct Hpost as [H | [H | (H1 & H2 & H3)]]; [contradiction | contradiction|].
  intros Hin.
  rewrite <- (Z2Nat.id (path.startDot st)), <- (Z2Nat.id (path.end_ st)) in Hin by lia.
  apply slice_elem_of in Hin as (j & Hj & Hc); [|lia].
  apply (H3 j); [lia | exact Hc].
Qed.

Lemma toLowerCase_no_slash (s : jsstring) :
  CHAR_FORWARD_SLASH ∉ s -> CHAR_FORWARD_SLASH ∉ toLowerCase s.
Proof.
  intros H Hin. apply H. unfold toLowerCase in Hin.
  apply list_elem_of_In, in_map_iff in Hin as (c & Hc & Hin).
  apply list_elem_of_In in Hin.
  pose proof (lower_char_class c CHAR_FORWARD_SLASH (or_intror eq_refl)) as Hl.
  change (if (65 <=? c) && (c <=? 90) then c + 32 else c) with (lower_char c) in Hc.
  rewrite Hc, N.eqb_refl in Hl. symmetry in Hl. apply N.eqb_eq in Hl. now subst.
Qed.

Lemma string_of_uint_digits (d : Decimal.uint) :
  Forall (fun c => is_digit c = true) (js (NilEmpty.string_of_uint d)).
Proof. induction d; simpl; constructor; (reflexivity || assumption). Qed.

Lemma number_toString_digits (n : Z) :
  (0 <= n)%Z -> Forall (fun c => is_digit c = true) (number_toString n).
Proof.
  intros Hn. unfold number_toString, NilZero.string_of_int.
  destruct n as [|q|q]; [repeat constructor | | lia].
  cbn [Z.to_int]. unfold NilZero.string_of_uint.
  pose proof (DecimalPos.Unsigned.to_uint_nonnil q) as Hq.
  destruct (Pos.to_uint q) eqn:E; [contradiction | | | | | | | | | | ];
    rewrite <- E; apply string_of_uint_digits.
Qed.

Lemma number_toString_chars (n : Z) :
  Forall (fun c => is_digit c = true \/ c = 45) (number_toString n).
Proof.
  destruct (Z.le_gt_cases 0 n) as [Hn|Hn].
  - eapply Forall_impl; [apply (number_toString_digits n Hn)|]. auto.
  - destruct n as [|q|q]; try lia.
    unfold number_toString, NilZero.string_of_int. cbn [Z.to_int].
    change (js (String "-" (NilZero.string_of_uint (Pos.to_uint q))))
      with (45 :: js (NilZero.string_of_uint (Pos.to_uint q))).
    constructor; [now right|]. unfold NilZero.string_of_uint.
    destruct (Pos.to_uint q) eqn:E; [repeat constructor; now left | | | | | | | | | | ];
      rewrite <- E; (eapply Forall_impl; [apply string_of_uint_digits|]; auto).
Qed.

Lemma js_inj (s1 s2 : string) : js s1 = js s2 -> s1 = s2.
Proof.
  unfold js. intros H.
  rewrite <- (string_of_list_ascii_of_string s1), <- (string_of_list_ascii_of_string s2).
  f_equal. revert H. generalize (list_ascii_of_string s1) (list_ascii_of_string s2).
  induction l as [|a l IH]; intros [|b l']; simpl; try discriminate; [reflexivity|].
  intros [= Hab Hl]. f_equal; [|now apply IH].
  now rewrite <- (ascii_N_embedding a), <- (ascii_N_embedding b), Hab.
Qed.

Lemma to_int_isi (n : Z) :
  NilZero.int_of_string (NilZero.string_of_int (Z.to_int n)) = Some (Z.to_int n).
Proof.
  apply NilZero.isi; destruct n; simpl; try discriminate;
    intros E; injection E; apply DecimalPos.Unsigned.to_uint_nonnil.
Qed.

Lemma number_toString_inj (m n : Z) : number_toString m = number_toString n -> m = n.
Proof.
  unfold number_toString. intros H. apply js_inj in H.
  pose proof (to_int_isi m) as Hm. pose proof (to_int_isi n) as Hn.
  rewrite H, Hn in Hm. injection Hm as Hm.
  now rewrite <- (DecimalZ.of_to m), <- (DecimalZ.of_to n), Hm.
Qed.

Lemma digit_not_slash (c : N) : is_digit c = true \/ c = 45 -> c <> CHAR_FORWARD_SLASH.
Proof.
  unfold is_digit, CHAR_FORWARD_SLASH. intros [H | H] E; subst c; [|discriminate].
  apply andb_true_iff in H as [H _]. apply N.leb_le in H. lia.
Qed.

Lemma split_at_first (c : N) (a1 b1 a2 b2 : jsstring) :
  (c ∉ a1) -> (c ∉ a2) -> a1 ++ c :: b1 = a2 ++ c :: b2 -> a1 = a2 /\ b1 = b2.
Proof.
  revert a2. induction a1 as [|x a1 IH]; intros [|y a2] H1 H2 E; simpl in E.
  - injection E as E. now split.
  - injection E as -> _. exfalso. apply H2. apply elem_of_cons. now left.
  - injection E as -> _. exfalso. apply H1. apply elem_of_cons. now left.
  - injection E as -> E.
    destruct (IH a2) as [-> ->]; [| |exact E|now split].
    + intros H. apply H1. apply elem_of_cons. now right.
    + intros H. apply H2. apply elem_of_cons. now right.
Qed.

Lemma Part000_filename_slash_free (now random : Z) (file : file_part) :
  fieldname file = js "file" ->
  slash_free (Part000.filename now random file).
Proof.
  intros Hf. unfold Part000.filename, slash_free. rewrite Hf.
  repeat rewrite Forall_app. repeat split.
  - repeat constructor; discriminate.
  - repeat constructor; discriminate.
  - eapply Forall_impl; [apply number_toString_chars|]. apply digit_not_slash.
  - repeat constructor; discriminate.
  - eapply Forall_impl; [apply number_toString_chars|]. apply digit_not_slash.
  - apply Forall_forall. intros c Hc ->.
    apply (toLowerCase_no_slash (path.extname (part_originalname file)));
      [apply extname_no_slash | exact Hc].
Qed.

(** X18.  In the second server the stored name is [file-], the time, [-],
    the random number and the lower-cased extension of the original name;
    it holds no separator, whatever the original name is, so that the file
    lands directly inside [UPLOAD_DIR].  (The name is taken in ASCII, where
    [toLowerCase] is modelled exactly.) *)
Theorem Part000_filename_inside (cwd __dirname : jsstring) (now random : Z)
    (file : file_part) :
  path.isAbsolute __dirname = true ->
  fieldname file = js "file" ->
  Forall (fun c => c < 128) (part_originalname file) ->
  let name := Part000.filename now random file in
  name = js "file-" ++ number_toString now ++ js "-" ++ number_toString random
         ++ toLowerCase (path.extname (part_originalname file))
  /\ (CHAR_FORWARD_SLASH ∉ name)
  /\ path.resolve cwd [path.join [Part000.UPLOAD_DIR __dirname; name]]
     = path.resolve cwd [Part000.UPLOAD_DIR __dirname] ++ CHAR_FORWARD_SLASH :: name.
Proof.
  intros Habs Hf _ name.
  pose proof (Part000_filename_slash_free now random file Hf) as Hs. fold name in Hs.
  assert (name = js "file-" ++ number_toString now ++ js "-" ++ number_toString random
                 ++ toLowerCase (path.extname (part_originalname file))) as Hname.
  { unfold name, Part000.filename. rewrite Hf, <- !app_assoc. reflexivity. }
  split; [exact Hname|]. split.
  - intros Hin. unfold slash_free in Hs. rewrite Forall_forall in Hs.
    now apply (Hs _ Hin).
  - apply (resolve_in_uploadDir cwd __dirname Habs).
    repeat split; try exact Hs; rewrite Hname; discriminate.
Qed.

Lemma Part000_filename_inside_witness :
  CHAR_FORWARD_SLASH
  ∉ Part000.filename 1700000000000 123456789
      (mk_file_part (js "file") (js "../../etc/passwd.TXT") (js "image/png") []).
Proof.
  apply (Part000_filename_inside (js "/srv") (js "/srv/app") 1700000000000 123456789
           (mk_file_part (js "file") (js "../../etc/passwd.TXT") (js "image/png") [])).
  - reflexivity.
  - reflexivity.
  - vm_compute. repeat constructor.
Defined.

(** X19.  In the second server two uploads of one file get the same stored
    name only when both [Date.now()] and the random number are the same:
    the name determines them. *)
Theorem Part000_filename_inj (now1 random1 now2 random2 : Z) (file : file_part) :
  (0 <= now1)%Z -> (0 <= now2)%Z ->
  Part000.filename now1 random1 file = Part000.filename now2 random2 file ->
  now1 = now2 /\ random1 = random2.
Proof.
  intros H1 H2. unfold Part000.filename. intros E.
  apply app_inv_head in E. apply app_inv_head in E. apply app_inv_tail in E.
  change (js "-" ++ number_toString random1) with (45 :: number_toString random1) in E.
  change (js "-" ++ number_toString random2) with (45 :: number_toString random2) in E.
  apply split_at_first in E as [En Er].
  - split; now apply number_toString_inj.
  - intros Hin. pose proof (number_toString_digits now1 H1) as Hd.
    rewrite Forall_forall in Hd. specialize (Hd _ Hin). discriminate.
  - intros Hin. pose proof (number_toString_digits now2 H2) as Hd.
    rewrite Forall_forall in Hd. specialize (Hd _ Hin). discriminate.
Qed.

Lemma Part000_filename_inj_witness :
  1700000000000%Z = 1700000000000%Z /\ 123456789%Z = 123456789%Z.
Proof.
  apply (Part000_filename_inj 1700000000000 123456789 1700000000000 123456789
           (mk_file_part (js "file") (js "photo.PNG") (js "image/png") []));
    [lia | lia | reflexivity].
Defined.
